(** * NeoShell command parser and pipeline executor (parser.py)

    A shallow embedding of [parse_command], [parse_pipeline],
    [execute_external] and [execute_pipeline] of [src/parser.py], with the
    properties of the natural-language specification stated over it.

    Python [str] values are modelled by [string] (sequences of 8-bit
    characters), which covers every ASCII input line; all the characters the
    parser inspects ([|], [>], [<], quotes, backslash, blanks) are ASCII. *)

From Stdlib Require Import String Ascii List Bool Arith ZArith Lia DecimalString.
Import ListNotations.
Local Open Scope string_scope.
Local Open Scope list_scope.

(** ** Python string primitives used by the parser *)

Module PyStr.

(** [str.isspace] on one character, restricted to code points below 256:
    TAB, LF, VT, FF, CR, the separators 0x1c-0x1f, SPACE, NEL and NBSP. *)
Definition isspace (c : ascii) : bool :=
  let n := nat_of_ascii c in
  (((9 <=? n) && (n <=? 13)) || ((28 <=? n) && (n <=? 32))
   || (n =? 133) || (n =? 160))%nat.

(** [s.lstrip()] *)
Fixpoint lstrip (s : string) : string :=
  match s with
  | EmptyString => EmptyString
  | String c rest => if isspace c then lstrip rest else s
  end.

(** [s.rstrip()] *)
Fixpoint rstrip (s : string) : string :=
  match s with
  | EmptyString => EmptyString
  | String c rest =>
      match rstrip rest with
      | EmptyString => if isspace c then EmptyString else String c EmptyString
      | r => String c r
      end
  end.

(** [s.strip()] *)
Definition strip (s : string) : string := rstrip (lstrip s).

(** [s.split(sep)] for a one-character separator: cuts at every occurrence
    of [sep], keeps empty pieces, and always returns at least one piece. *)
Fixpoint split (sep : ascii) (s : string) : list string :=
  match s with
  | EmptyString => [EmptyString]
  | String c rest =>
      if Ascii.eqb c sep then EmptyString :: split sep rest
      else match split sep rest with
           | piece :: pieces => String c piece :: pieces
           | [] => [String c EmptyString]
           end
  end.

(** [sep.join(pieces)] for a one-character separator. *)
Fixpoint join (sep : ascii) (pieces : list string) : string :=
  match pieces with
  | [] => EmptyString
  | [p] => p
  | p :: rest => (p ++ String sep (join sep rest))%string
  end.

(** [s.count(c)] for a one-character needle. *)
Fixpoint count (c : ascii) (s : string) : nat :=
  match s with
  | EmptyString => 0
  | String d rest => (if Ascii.eqb d c then 1 else 0) + count c rest
  end.

(** [c in s] for a one-character needle. *)
Fixpoint contains (c : ascii) (s : string) : bool :=
  match s with
  | EmptyString => false
  | String d rest => Ascii.eqb d c || contains c rest
  end.

(** Truthiness of a string: [if s:] holds for non-empty strings only. *)
Definition truthy (s : string) : bool :=
  match s with EmptyString => false | _ => true end.

End PyStr.

(** ** shlex.split

    [parse_command] tokenizes with the standard library's
    [shlex.split(s)], that is a [shlex] lexer in POSIX mode with
    [whitespace_split = True] and no comment characters.  The lexer is the
    character-driven state machine of [shlex.read_token]; its state is one of
    [' '] (between words), ['a'] (inside a word), a quote character, or the
    escape character.  Unterminated quotes and a trailing backslash raise
    [ValueError]. *)

Module Shlex.

Inductive lexstate : Type :=
| InSpace                  (* state ' ' *)
| InWord                   (* state 'a' *)
| InQuote (q : ascii)      (* state is the opening quote *)
| InEscape.                (* state is the escape character *)

Definition whitespace (c : ascii) : bool :=
  Ascii.eqb c " " || Ascii.eqb c "009" || Ascii.eqb c "013" || Ascii.eqb c "010".
Definition is_quote (c : ascii) : bool := Ascii.eqb c "'" || Ascii.eqb c "034".
Definition is_escape (c : ascii) : bool := Ascii.eqb c "\".
(** [escapedquotes]: the quotes inside which a backslash still escapes. *)
Definition is_escapedquote (c : ascii) : bool := Ascii.eqb c "034".

(** The variables of the lexer that live across characters. *)
Record lexer : Type := mkLexer {
  state : lexstate;
  escapedstate : lexstate;
  quoted : bool;
  token : string;
  emitted : list string
}.

Definition init : lexer :=
  mkLexer InSpace InSpace false EmptyString [].

Definition push (c : ascii) (t : string) : string :=
  (t ++ String c EmptyString)%string.

(** The lexer leaves [read_token] with its token and starts the next one:
    [quoted] and [escapedstate] are locals of [read_token]. *)
Definition emit (st : lexstate) (lx : lexer) : lexer :=
  mkLexer st InSpace false EmptyString (emitted lx ++ [token lx]).

(** "emit current token" on blanks: [if self.token or (posix and quoted)]. *)
Definition break_or_continue (st : lexstate) (lx : lexer) : lexer :=
  if PyStr.truthy (token lx) || quoted lx then emit st lx
  else mkLexer st (escapedstate lx) (quoted lx) (token lx) (emitted lx).

(** One iteration of the [while True] loop of [read_token] on character
    [c]. *)
Definition step (c : ascii) (lx : lexer) : lexer :=
  match state lx with
  | InSpace =>
      if whitespace c then break_or_continue InSpace lx
      else if is_escape c then
        mkLexer InEscape InWord (quoted lx) (token lx) (emitted lx)
      else if is_quote c then
        mkLexer (InQuote c) (escapedstate lx) (quoted lx) (token lx) (emitted lx)
      else
        mkLexer InWord (escapedstate lx) (quoted lx) (String c EmptyString) (emitted lx)
  | InQuote q =>
      if Ascii.eqb c q then
        mkLexer InWord (escapedstate lx) true (token lx) (emitted lx)
      else if is_escape c && is_escapedquote q then
        mkLexer InEscape (InQuote q) true (token lx) (emitted lx)
      else
        mkLexer (InQuote q) (escapedstate lx) true (push c (token lx)) (emitted lx)
  | InEscape =>
      let t :=
        match escapedstate lx with
        | InQuote q =>
            if negb (is_escape c) && negb (Ascii.eqb c q)
            then push "\" (token lx) else token lx
        | _ => token lx
        end in
      mkLexer (escapedstate lx) (escapedstate lx) (quoted lx) (push c t) (emitted lx)
  | InWord =>
      if whitespace c then break_or_continue InSpace lx
      else if is_quote c then
        mkLexer (InQuote c) (escapedstate lx) (quoted lx) (token lx) (emitted lx)
      else if is_escape c then
        mkLexer InEscape InWord (quoted lx) (token lx) (emitted lx)
      else
        mkLexer InWord (escapedstate lx) (quoted lx) (push c (token lx)) (emitted lx)
  end.

(** End of input: an open quote or a pending escape raises [ValueError];
    otherwise the last token is returned unless it is empty and unquoted. *)
Definition finish (lx : lexer) : string + list string :=
  match state lx with
  | InQuote _ => inl "No closing quotation"
  | InEscape => inl "No escaped character"
  | InSpace | InWord =>
      if PyStr.truthy (token lx) || quoted lx
      then inr (emitted lx ++ [token lx])
      else inr (emitted lx)
  end.

Fixpoint run (s : string) (lx : lexer) : string + list string :=
  match s with
  | EmptyString => finish lx
  | String c rest => run rest (step c lx)
  end.

(** [shlex.split(s)]: [inl msg] stands for [ValueError(msg)]. *)
Definition split (s : string) : string + list string := run s init.

End Shlex.

(** ** parse_command *)

(** The dictionary built by [parse_command] on success. *)
Record cmd_dict : Type := mkCmd {
  command : string;
  args : list string;
  input_file : option string;
  output_file : option string;
  append : bool
}.

(** A result of [parse_command]: either [{'error': msg}] or a command
    dictionary (the test ['error' in parsed] tells them apart). *)
Inductive parsed : Type :=
| ParseError (msg : string)
| Parsed (c : cmd_dict).

Definition set_output_file (f : string) (r : cmd_dict) : cmd_dict :=
  mkCmd (command r) (args r) (input_file r) (Some f) (append r).
Definition set_append (b : bool) (r : cmd_dict) : cmd_dict :=
  mkCmd (command r) (args r) (input_file r) (output_file r) b.
Definition set_input_file (f : string) (r : cmd_dict) : cmd_dict :=
  mkCmd (command r) (args r) (Some f) (output_file r) (append r).
Definition append_arg (a : string) (r : cmd_dict) : cmd_dict :=
  mkCmd (command r) (args r ++ [a]) (input_file r) (output_file r) (append r).

(** The [while i < len(tokens)] loop; [ts] is [tokens[i:]]. *)
Fixpoint scan (ts : list string) (result : cmd_dict) : parsed :=
  match ts with
  | [] => Parsed result
  | t :: rest =>
      if String.eqb t ">" then
        match rest with
        | f :: rest' => scan rest' (set_output_file f result)
        | [] => ParseError "Missing filename after >"
        end
      else if String.eqb t ">>" then
        match rest with
        | f :: rest' => scan rest' (set_append true (set_output_file f result))
        | [] => ParseError "Missing filename after >>"
        end
      else if String.eqb t "<" then
        match rest with
        | f :: rest' => scan rest' (set_input_file f result)
        | [] => ParseError "Missing filename after <"
        end
      else scan rest (append_arg t result)
  end.

(** [parse_command] from the token list on (lines 19-55). *)
Definition parse_tokens (tokens : list string) : parsed :=
  match tokens with
  | [] => ParseError "Empty command"
  | t0 :: rest => scan rest (mkCmd t0 [] None None false)
  end.

Definition parse_command (command_str : string) : parsed :=
  match Shlex.split command_str with
  | inl e => ParseError ("Syntax error: " ++ e)%string
  | inr tokens => parse_tokens tokens
  end.

(** ** parse_pipeline *)

(** A result of [parse_pipeline]: [{'error': msg}] or
    [{'pipeline': commands}]. *)
Inductive pipeline_result : Type :=
| PipelineError (msg : string)
| Pipeline (commands : list cmd_dict).

(** The [for cmd in pipeline] loop; [commands] is the list built so far. *)
Fixpoint parse_segments (segments : list string) (commands : list cmd_dict)
  : pipeline_result :=
  match segments with
  | [] => Pipeline commands
  | cmd :: rest =>
      let cmd := PyStr.strip cmd in
      if negb (PyStr.truthy cmd) then PipelineError "Empty command in pipeline"
      else match parse_command cmd with
           | ParseError msg => PipelineError msg
           | Parsed c => parse_segments rest (commands ++ [c])
           end
  end.

(** No call in the [try] block raises on a [str] argument, so the
    [except Exception] handler of the source is never entered. *)
Definition parse_pipeline (command_str : string) : pipeline_result :=
  parse_segments (PyStr.split "|" command_str) [].

(** ** The operating system as seen by the executor

    [open], [subprocess.Popen] and [subprocess.run] are modelled over an
    explicit world: the handles the shell process holds open, the child
    processes it has started and those it has waited on, and what it has
    printed.  What the operating system answers (whether a file opens,
    whether a program launches, how a child ends) is given by an
    environment [os_env]. *)

Inductive exn : Type :=
| FileNotFoundError (msg : string)
| PermissionError (msg : string)
| OtherException (msg : string).

(** [str(e)] *)
Definition str_exn (e : exn) : string :=
  match e with
  | FileNotFoundError m | PermissionError m | OtherException m => m
  end.

Inductive mode : Type := ModeR | ModeW | ModeA.

(** What happens when a program is started.  The pipes are opened with
    [text=True]: a child whose stderr is not valid text makes
    [stderr.read()] raise (a [UnicodeDecodeError]) once the child has run. *)
Inductive launch_result : Type :=
| Launched (returncode : Z) (stderr_text : string)
| LaunchedUndecodable (returncode : Z) (msg : string)
| LaunchFails (e : exn).

Record os_env : Type := mkEnv {
  (** outcome of [open(path, mode)]: [None] when the file opens *)
  open_outcome : string -> mode -> option exn;
  (** outcome of starting [cmd_list] as the child number [k] of the shell *)
  spawn_outcome : nat -> list string -> launch_result
}.

Definition handle : Type := nat.

(** What [stderr.read()] gives once the child has ended: the text, or a
    decoding error with its message. *)
Inductive stderr_outcome : Type :=
| StderrText (text : string)
| StderrUndecodable (msg : string).

(** A [Popen] object: [returncode] is what [wait] gives once the child has
    ended, and [stderr_read] what [stderr.read()] then gives. *)
Record popen : Type := mkPopen {
  pid : nat;
  p_stdout : option handle;
  p_stderr : handle;
  returncode : Z;
  stderr_read : stderr_outcome
}.

Inductive output : Type :=
| PrintError (msg : string)        (* ui.print_error(msg) *)
| PrintStderr (text : string).     (* print(text, file=sys.stderr, end='') *)

(** The world of the shell process.  A handle stays in [open_handles]
    until the code calls [close()] on it, and a child is in [waited] once the
    code has called [wait()] on it (directly or inside [subprocess.run]);
    what the garbage collector may finalise later is not part of the
    model. *)
Record world : Type := mkWorld {
  next_handle : nat;
  open_handles : list handle;
  started : list nat;
  waited : list nat;
  console : list output
}.

Definition world0 : world := mkWorld 0 [] [] [] [].

(** *** A state-and-exception monad

    A raised exception keeps the effects performed before it. *)

Inductive outcome (A : Type) : Type :=
| Ret (a : A)
| Raise (e : exn).
Arguments Ret {A} a.
Arguments Raise {A} e.

Definition M (A : Type) : Type := world -> outcome A * world.

Definition ret {A} (a : A) : M A := fun w => (Ret a, w).
Definition raise {A} (e : exn) : M A := fun w => (Raise e, w).
Definition bind {A B} (m : M A) (k : A -> M B) : M B :=
  fun w => match m w with
           | (Ret a, w') => k a w'
           | (Raise e, w') => (Raise e, w')
           end.
(** [try: m  except ...: handler]: [handler e = None] when no clause
    matches [e], which then propagates. *)
Definition try_except {A} (m : M A) (handler : exn -> option (M A)) : M A :=
  fun w => match m w with
           | (Ret a, w') => (Ret a, w')
           | (Raise e, w') =>
               match handler e with
               | Some h => h w'
               | None => (Raise e, w')
               end
           end.

Declare Scope py_scope.
Delimit Scope py_scope with py.
Notation "x <- m ;; k" := (bind m (fun x => k))
  (at level 61, m at next level, right associativity) : py_scope.
Notation "m ;; k" := (bind m (fun _ => k))
  (at level 61, right associativity) : py_scope.
Local Open Scope py_scope.

Section Executor.

Variable env : os_env.

Definition py_open (path : string) (md : mode) : M handle :=
  fun w => match open_outcome env path md with
           | Some e => (Raise e, w)
           | None =>
               let h := next_handle w in
               (Ret h, mkWorld (S h) (open_handles w ++ [h])
                               (started w) (waited w) (console w))
           end.

Definition close (h : handle) : M unit :=
  fun w => (Ret tt, mkWorld (next_handle w)
                            (filter (fun x => negb (Nat.eqb x h)) (open_handles w))
                            (started w) (waited w) (console w)).

Definition close_opt (h : option handle) : M unit :=
  match h with Some x => close x | None => ret tt end.

Definition log (o : output) (w : world) : world :=
  mkWorld (next_handle w) (open_handles w) (started w) (waited w)
          (console w ++ [o]).

Definition print_error (msg : string) : M unit :=
  fun w => (Ret tt, log (PrintError msg) w).

Definition print_stderr (text : string) : M unit :=
  fun w => (Ret tt, log (PrintStderr text) w).

(** The [stdout=] argument of [Popen]. *)
Inductive stdout_arg : Type :=
| StdoutNone
| StdoutFile (h : handle)
| StdoutPIPE.

(** The parent side of a child that has started: the pipes are created
    and the child is recorded. *)
Definition start_child (rc : Z) (err : stderr_outcome) (stdout : stdout_arg)
  : M popen :=
  fun w =>
    let k := length (started w) in
    match stdout with
    | StdoutPIPE =>
        let ho := next_handle w in
        let he := S ho in
        (Ret (mkPopen k (Some ho) he rc err),
         mkWorld (S he) (open_handles w ++ [ho; he])
                 (started w ++ [k]) (waited w) (console w))
    | _ =>
        let he := next_handle w in
        (Ret (mkPopen k None he rc err),
         mkWorld (S he) (open_handles w ++ [he])
                 (started w ++ [k]) (waited w) (console w))
    end.

(** [subprocess.Popen(cmd_list, stdin=, stdout=, stderr=PIPE, text=True)].
    When the launch fails, [Popen] closes the pipes it had created itself
    and raises; the handles passed in stay as they were.  On success the
    parent holds the read end of the stderr pipe and, for
    [stdout=PIPE], the read end of the stdout pipe. *)
Definition Popen (cmd_list : list string) (stdin : option handle)
           (stdout : stdout_arg) : M popen :=
  fun w =>
    match spawn_outcome env (length (started w)) cmd_list with
    | LaunchFails e => (Raise e, w)
    | Launched rc err => start_child rc (StderrText err) stdout w
    | LaunchedUndecodable rc msg => start_child rc (StderrUndecodable msg) stdout w
    end.

(** [proc.wait()] *)
Definition wait (proc : popen) : M unit :=
  fun w => (Ret tt, mkWorld (next_handle w) (open_handles w) (started w)
                            (waited w ++ [pid proc]) (console w)).

(** [proc.stderr.read()] once the child has ended *)
Definition read_stderr (proc : popen) : M string :=
  match stderr_read proc with
  | StderrText text => ret text
  | StderrUndecodable msg => raise (OtherException msg)
  end.

(** [subprocess.run(cmd_list, stdin=, stdout=, stderr=PIPE, text=True)]:
    starts the child, reads its stderr to the end, waits for it and closes
    the pipe; returns [(returncode, stderr)].  When reading raises, [run]
    kills the child and leaves its [with] block, which closes the pipe and
    waits for the child, before the exception goes on to the caller. *)
Definition subprocess_run (cmd_list : list string) (stdin : option handle)
           (stdout : stdout_arg) : M (Z * string) :=
  proc <- Popen cmd_list stdin stdout ;;
  wait proc ;;
  close (p_stderr proc) ;;
  err <- read_stderr proc ;;
  ret (returncode proc, err).

(** Truthiness of an optional string: [None] and [''] are false. *)
Definition truthy_path (f : option string) : option string :=
  match f with
  | Some path => if PyStr.truthy path then Some path else None
  | None => None
  end.

Definition open_mode (parsed_cmd : cmd_dict) : mode :=
  if append parsed_cmd then ModeA else ModeW.

(** *** execute_external *)

(** Lines 94-114, after [stdin] has been settled. *)
Definition execute_external_run (parsed_cmd : cmd_dict)
           (stdin : option handle) : M (option Z) :=
  let cmd_list := command parsed_cmd :: args parsed_cmd in
  stdout <- match truthy_path (output_file parsed_cmd) with
            | Some path => h <- py_open path (open_mode parsed_cmd) ;; ret (Some h)
            | None => ret None
            end ;;
  result <- subprocess_run cmd_list stdin
              (match stdout with Some h => StdoutFile h | None => StdoutNone end) ;;
  close_opt stdin ;;
  close_opt stdout ;;
  (if PyStr.truthy (snd result) then print_stderr (snd result) else ret tt) ;;
  ret (Some (fst result)).

(** The body of the outer [try] (lines 82-114).  The inner [try] around
    [open(input_file, 'r')] catches [FileNotFoundError] only and leaves the
    function with a bare [return], that is [None]. *)
Definition execute_external_body (parsed_cmd : cmd_dict) : M (option Z) :=
  match truthy_path (input_file parsed_cmd) with
  | Some path =>
      r <- try_except
             (h <- py_open path ModeR ;; ret (Some h))
             (fun e => match e with
                       | FileNotFoundError _ =>
                           Some (print_error ("Input file not found: " ++ path)%string ;;
                                 ret None)
                       | _ => None
                       end) ;;
      match r with
      | Some h => execute_external_run parsed_cmd (Some h)
      | None => ret None
      end
  | None => execute_external_run parsed_cmd None
  end.

Definition execute_external (parsed_cmd : cmd_dict) : M (option Z) :=
  try_except (execute_external_body parsed_cmd)
    (fun e => match e with
              | FileNotFoundError _ =>
                  Some (print_error ("Command not found: " ++ command parsed_cmd)%string ;;
                        ret (Some 127%Z))
              | PermissionError _ =>
                  Some (print_error ("Permission denied: " ++ command parsed_cmd)%string ;;
                        ret (Some 126%Z))
              | _ =>
                  Some (print_error ("Error: " ++ str_exn e)%string ;;
                        ret (Some 1%Z))
              end).

(** *** execute_pipeline *)

(** The [for i, cmd_dict in enumerate(pipeline)] loop (lines 133-163);
    [n] is [len(pipeline)], [stages] is [pipeline[i:]]. *)
Fixpoint launch_stages (n i : nat) (stages : list cmd_dict)
         (processes : list popen) (prev_stdout : option handle)
  : M (list popen) :=
  match stages with
  | [] => ret processes
  | cmd_dict :: rest =>
      let cmd_list := command cmd_dict :: args cmd_dict in
      stdin <- match (if Nat.eqb i 0 then truthy_path (input_file cmd_dict) else None) with
               | Some path => h <- py_open path ModeR ;; ret (Some h)
               | None => ret prev_stdout
               end ;;
      stdout <- (if Nat.eqb i (n - 1) then
                   match truthy_path (output_file cmd_dict) with
                   | Some path =>
                       h <- py_open path (open_mode cmd_dict) ;; ret (StdoutFile h)
                   | None => ret StdoutNone
                   end
                 else ret StdoutPIPE) ;;
      proc <- Popen cmd_list stdin stdout ;;
      close_opt prev_stdout ;;
      launch_stages n (S i) rest (processes ++ [proc]) (p_stdout proc)
  end.

(** The [for proc in processes] loop (lines 165-170). *)
Fixpoint wait_all (processes : list popen) : M unit :=
  match processes with
  | [] => ret tt
  | proc :: rest =>
      wait proc ;;
      err <- read_stderr proc ;;
      (if PyStr.truthy err then print_stderr err else ret tt) ;;
      wait_all rest
  end.

Definition execute_pipeline_body (pipeline : list cmd_dict) : M Z :=
  processes <- launch_stages (length pipeline) 0 pipeline [] None ;;
  wait_all processes ;;
  ret 0%Z.

Definition execute_pipeline (pipeline : list cmd_dict) : M Z :=
  try_except (execute_pipeline_body pipeline)
    (fun e => match e with
              | FileNotFoundError _ =>
                  Some (print_error "Command not found in pipeline" ;; ret 127%Z)
              | _ =>
                  Some (print_error ("Pipeline error: " ++ str_exn e)%string ;;
                        ret 1%Z)
              end).

End Executor.

(** ** Vocabulary of the properties *)

(** The three redirection operators recognised by [parse_command]. *)
Inductive redirection : Type := RedirOut | RedirAppend | RedirIn.

Definition redirection_token (o : redirection) : string :=
  match o with
  | RedirOut => ">"
  | RedirAppend => ">>"
  | RedirIn => "<"
  end.

Definition is_redirection (t : string) : bool :=
  String.eqb t ">" || String.eqb t ">>" || String.eqb t "<".

(** What the scan does to [result] when it meets operator [o] followed by
    the token [f]. *)
Definition redirect (o : redirection) (f : string) (result : cmd_dict) : cmd_dict :=
  match o with
  | RedirOut => set_output_file f result
  | RedirAppend => set_append true (set_output_file f result)
  | RedirIn => set_input_file f result
  end.

(** The scan as the specification words it (section 4.2): [>] makes the next
    token the output path with append false, [>>] with append true, [<]
    makes it the input path, any other token is an argument. *)
Fixpoint spec_scan (ts : list string) (result : cmd_dict) : parsed :=
  match ts with
  | [] => Parsed result
  | t :: rest =>
      if String.eqb t ">" then
        match rest with
        | f :: rest' => spec_scan rest' (set_append false (set_output_file f result))
        | [] => ParseError "Missing filename after >"
        end
      else if String.eqb t ">>" then
        match rest with
        | f :: rest' => spec_scan rest' (set_append true (set_output_file f result))
        | [] => ParseError "Missing filename after >>"
        end
      else if String.eqb t "<" then
        match rest with
        | f :: rest' => spec_scan rest' (set_input_file f result)
        | [] => ParseError "Missing filename after <"
        end
      else spec_scan rest (append_arg t result)
  end.

Definition spec_parse_tokens (tokens : list string) : parsed :=
  match tokens with
  | [] => ParseError "Empty command"
  | t0 :: rest => spec_scan rest (mkCmd t0 [] None None false)
  end.

(** Two dictionaries that agree on everything but the append flag. *)
Definition same_but_append (a b : cmd_dict) : Prop :=
  command a = command b /\ args a = args b /\
  input_file a = input_file b /\ output_file a = output_file b.

(** The error, if any, that the loop of [parse_pipeline] reports for one
    [|]-separated segment. *)
Definition segment_error (segment : string) : option string :=
  let cmd := PyStr.strip segment in
  if negb (PyStr.truthy cmd) then Some "Empty command in pipeline"
  else match parse_command cmd with
       | ParseError msg => Some msg
       | Parsed _ => None
       end.

Definition no_bar (s : string) : Prop := PyStr.contains "|" s = false.

Definition no_bar_opt (f : option string) : Prop :=
  match f with Some s => no_bar s | None => True end.

(** No word of the stage contains a [|]. *)
Definition no_bar_cmd (c : cmd_dict) : Prop :=
  no_bar (command c) /\ Forall no_bar (args c) /\
  no_bar_opt (input_file c) /\ no_bar_opt (output_file c).

(** Neither the token being built nor the emitted ones contain a [|]. *)
Definition lexer_no_bar (lx : Shlex.lexer) : Prop :=
  no_bar (Shlex.token lx) /\ Forall no_bar (Shlex.emitted lx).

(** The line [echo "a|b"]. *)
Definition echo_quoted_bar : string :=
  "echo " ++ String "034" ("a|b" ++ String "034" EmptyString).

(** A stage without redirections. *)
Definition plain (prog : string) (arguments : list string) : cmd_dict :=
  mkCmd prog arguments None None false.

(** An environment for the concrete runs below: [missing.txt] does not
    exist, [nosuch] is not a program, [./deploy.sh] is not executable,
    [false] exits with 1 and every other program with 0. *)
Definition demo_env : os_env :=
  mkEnv
    (fun path md =>
       if String.eqb path "missing.txt"
       then Some (FileNotFoundError "[Errno 2] No such file or directory: 'missing.txt'")
       else None)
    (fun k cmd_list =>
       match cmd_list with
       | prog :: _ =>
           if String.eqb prog "nosuch"
           then LaunchFails (FileNotFoundError "[Errno 2] No such file or directory: 'nosuch'")
           else if String.eqb prog "./deploy.sh"
           then LaunchFails (PermissionError "[Errno 13] Permission denied: './deploy.sh'")
           else if String.eqb prog "false" then Launched 1 EmptyString
           else Launched 0 EmptyString
       | [] => Launched 0 EmptyString
       end).

(** Every file opens, and every program starts and writes valid text to
    its stderr. *)
Definition all_start (env : os_env) : Prop :=
  (forall path md, open_outcome env path md = None) /\
  (forall k cmd_list, exists rc err, spawn_outcome env k cmd_list = Launched rc err).

(** The exit code the handlers of [execute_external] give to an exception
    that reaches them. *)
Definition external_code (e : exn) : Z :=
  match e with
  | FileNotFoundError _ => 127
  | PermissionError _ => 126
  | OtherException _ => 1
  end.

(** The exit code the handlers of [execute_pipeline] give to an exception
    that reaches them. *)
Definition pipeline_code (e : exn) : Z :=
  match e with
  | FileNotFoundError _ => 127
  | _ => 1
  end.

(** A child whose stderr is valid text: [stderr.read()] returns. *)
Definition decodable (proc : popen) : Prop :=
  exists text, stderr_read proc = StderrText text.

(** A computation that neither waits on a process nor prints. *)
Definition quiet {A} (m : M A) : Prop :=
  forall w, waited (snd (m w)) = waited w /\ console (snd (m w)) = console w.

(** A computation that never raises. *)
Definition succeeds {A} (m : M A) : Prop :=
  forall w, exists a w', m w = (Ret a, w').

(** [all(p(c) for c in s)] *)
Fixpoint all_chars (p : ascii -> bool) (s : string) : bool :=
  match s with
  | EmptyString => true
  | String c rest => p c && all_chars p rest
  end.

(** A subsequence: the elements of the first list occur in the second, in
    the same order. *)
Inductive subsequence {A : Type} : list A -> list A -> Prop :=
| sub_nil : subsequence [] []
| sub_skip x l1 l2 : subsequence l1 l2 -> subsequence l1 (x :: l2)
| sub_take x l1 l2 : subsequence l1 l2 -> subsequence (x :: l1) (x :: l2).

(** What the loop of [parse_pipeline] requires of a segment to make it the
    stage [c]. *)
Definition segment_stage (segment : string) (c : cmd_dict) : Prop :=
  PyStr.strip segment <> EmptyString /\
  parse_command (PyStr.strip segment) = Parsed c.

(** Every open handle was handed out before [next_handle]. *)
Definition wf_world (w : world) : Prop :=
  Forall (fun h => h < next_handle w) (open_handles w).

(** The [stdin=] argument that the loop of [execute_pipeline] settles for
    stage [i] (lines 136-140). *)
Definition stage_stdin (env : os_env) (i : nat) (cmd_dict : cmd_dict)
           (prev_stdout : option handle) : M (option handle) :=
  match (if Nat.eqb i 0 then truthy_path (input_file cmd_dict) else None) with
  | Some path => h <- py_open env path ModeR ;; ret (Some h)
  | None => ret prev_stdout
  end.

(** The [stdout=] argument it settles for stage [i] of [n] (lines
    142-148). *)
Definition stage_stdout (env : os_env) (n i : nat) (cmd_dict : cmd_dict)
  : M stdout_arg :=
  if Nat.eqb i (n - 1) then
    match truthy_path (output_file cmd_dict) with
    | Some path => h <- py_open env path (open_mode cmd_dict) ;; ret (StdoutFile h)
    | None => ret StdoutNone
    end
  else ret StdoutPIPE.


(** The dictionary with its empty-string paths replaced by [None]. *)
Definition drop_empty_paths (c : cmd_dict) : cmd_dict :=
  mkCmd (command c) (args c) (truthy_path (input_file c))
        (truthy_path (output_file c)) (append c).

(** The stages [pipeline[i:]] of a pipeline of [n] stages, with the input
    path removed from every stage but the first and the output path and
    append flag removed from every stage but the last. *)
Fixpoint clear_inner (n i : nat) (stages : list cmd_dict) : list cmd_dict :=
  match stages with
  | [] => []
  | c :: rest =>
      mkCmd (command c) (args c)
            (if Nat.eqb i 0 then input_file c else None)
            (if Nat.eqb i (n - 1) then output_file c else None)
            (if Nat.eqb i (n - 1) then append c else false)
      :: clear_inner n (S i) rest
  end.

(** An environment in which files open for reading but the directory of
    every output file is missing; every program starts and exits with 0. *)
Definition no_output_env : os_env :=
  mkEnv
    (fun path md =>
       match md with
       | ModeR => None
       | _ => Some (FileNotFoundError "[Errno 2] No such file or directory")
       end)
    (fun _ _ => Launched 0 EmptyString).

(** ** neoshell.py: the parser and the command translation of the REPL *)

Module NeoShell.

(** [NeoShell.parse_command]: the first token is the command and all the
    others are its arguments; no redirection is recognised. *)
Definition parse_command (command_line : string) : parsed :=
  match Shlex.split command_line with
  | inl e => ParseError ("Syntax error: " ++ e)%string
  | inr [] => ParseError "Empty command"
  | inr (t0 :: rest) => Parsed (mkCmd t0 rest None None false)
  end.

(** [NeoShell.translate_command_for_windows]; [platform] is
    [sys.platform]. *)
Definition translate_command_for_windows (platform : string) (c : cmd_dict)
  : cmd_dict :=
  if String.eqb platform "win32" then
    if String.eqb (command c) "ls" then
      mkCmd "cmd" ("/c" :: "dir" :: args c) (input_file c) (output_file c) (append c)
    else if String.eqb (command c) "ps" then
      mkCmd "ps" (args c) (input_file c) (output_file c) (append c)
    else if String.eqb (command c) "grep" then
      mkCmd "findstr" (args c) (input_file c) (output_file c) (append c)
    else c
  else c.

End NeoShell.

(** ** history.py: show_history *)

Module History.

(** [readline.get_history_item(i)] on a history given oldest first: items
    are numbered from 1, and an index out of range gives [None]. *)
Definition get_history_item (history : list string) (i : Z) : option string :=
  if ((1 <=? i) && (i <=? Z.of_nat (length history)))%Z
  then nth_error history (Z.to_nat (i - 1))
  else None.

Fixpoint range_from (start : Z) (count : nat) : list Z :=
  match count with
  | O => []
  | S k => start :: range_from (start + 1)%Z k
  end.

(** [range(a, b)] *)
Definition range (a b : Z) : list Z := range_from a (Z.to_nat (b - a)).

Fixpoint spaces (n : nat) : string :=
  match n with
  | O => EmptyString
  | S k => String " " (spaces k)
  end.

(** [f"{i:4d}"]: the decimal digits of [i], right-aligned in a field of
    width 4 (longer numbers are not cut). *)
Definition format_4d (i : Z) : string :=
  let digits := DecimalString.NilZero.string_of_int (Z.to_int i) in
  (spaces (4 - String.length digits) ++ digits)%string.

(** The line printed for item [i], if any: empty items are skipped. *)
Definition history_line (history : list string) (i : Z) : list string :=
  match get_history_item history i with
  | Some item =>
      if PyStr.truthy item then [(format_4d i ++ "  " ++ item)%string] else []
  | None => []
  end.

(** [show_history(n)]: the lines it prints, for the readline history
    [history]. *)
Definition show_history (history : list string) (n : Z) : list string :=
  let length := Z.of_nat (List.length history) in
  let start := Z.max 1 (length - n + 1) in
  flat_map (history_line history) (range start (length + 1)).

(** The lines for [items], the first of which has number [first]. *)
Fixpoint numbered_lines (first : Z) (items : list string) : list string :=
  match items with
  | [] => []
  | item :: rest =>
      (if PyStr.truthy item then [(format_4d first ++ "  " ++ item)%string] else [])
      ++ numbered_lines (first + 1) rest
  end.

End History.

(** ** commands.py: echo, export and unset *)

Module Commands.

(** What the commands show: [print] and the [print_*] functions of [ui],
    and a [rich] table handed to [console.print]. *)
Inductive ui_event : Type :=
| UiPrint (text : string)
| UiError (msg : string)
| UiSuccess (msg : string)
| UiWarning (msg : string)
| UiTable (title : string) (columns : list string) (rows : list (string * string)).

(** [os.environ] on a POSIX system: a dictionary from names to values, in
    insertion order. *)
Definition environ : Type := list (string * string).

(** [os.environ.get(key)] ([None] when [key] is not set) *)
Fixpoint environ_get (data : environ) (key : string) : option string :=
  match data with
  | [] => None
  | (k, v) :: rest => if String.eqb k key then Some v else environ_get rest key
  end.

(** The dictionary after [data[key] = value]: an existing key keeps its
    place, a new one goes last. *)
Fixpoint dict_set (data : environ) (key value : string) : environ :=
  match data with
  | [] => [(key, value)]
  | (k, v) :: rest =>
      if String.eqb k key then (k, value) :: rest
      else (k, v) :: dict_set rest key value
  end.

(** The dictionary after [del data[key]]: no entry for [key] is left. *)
Fixpoint dict_del (data : environ) (key : string) : environ :=
  match data with
  | [] => []
  | (k, v) :: rest =>
      if String.eqb k key then dict_del rest key else (k, v) :: dict_del rest key
  end.

Definition has_nul (s : string) : bool := PyStr.contains "000" s.

(** [os.environ[key] = value]: [putenv] refuses an embedded null byte and
    a name with [=] by raising [ValueError], and an empty name by raising
    [OSError]. *)
Definition environ_setitem (data : environ) (key value : string)
  : exn + environ :=
  if has_nul key || has_nul value then
    inl (OtherException "embedded null byte")
  else if PyStr.contains "=" key then
    inl (OtherException "illegal environment variable name")
  else if negb (PyStr.truthy key) then
    inl (OtherException "[Errno 22] Invalid argument")
  else inr (dict_set data key value).

(** [del os.environ[key]] for a key that is set: [unsetenv] refuses the
    same names. *)
Definition environ_delitem (data : environ) (key : string) : exn + environ :=
  if has_nul key then inl (OtherException "embedded null byte")
  else if negb (PyStr.truthy key) || PyStr.contains "=" key then
    inl (OtherException "[Errno 22] Invalid argument")
  else inr (dict_del data key).

Record shell : Type := mkShell {
  env_data : environ;
  shown : list ui_event
}.

Definition show (e : ui_event) (sh : shell) : shell :=
  mkShell (env_data sh) (shown sh ++ [e]).

(** [arg.split('=', 1)] for an [arg] that contains [=]: what is before the
    first [=] and what is after it. *)
Fixpoint split_once (sep : ascii) (s : string) : string * string :=
  match s with
  | EmptyString => (EmptyString, EmptyString)
  | String c rest =>
      if Ascii.eqb c sep then (EmptyString, rest)
      else let (k, v) := split_once sep rest in (String c k, v)
  end.

(** [s[:n]] for [n >= 0] *)
Fixpoint take (n : nat) (s : string) : string :=
  match n, s with
  | S k, String c rest => String c (take k rest)
  | _, _ => EmptyString
  end.

(** [value[:50] + "..." if len(value) > 50 else value] *)
Definition display_value (value : string) : string :=
  if (50 <? String.length value)%nat then (take 50 value ++ "...")%string
  else value.

(** Tuple comparison [(k1, v1) <= (k2, v2)]. *)
Definition item_leb (a b : string * string) : bool :=
  match String.compare (fst a) (fst b) with
  | Lt => true
  | Eq => String.leb (snd a) (snd b)
  | Gt => false
  end.

Fixpoint insert_item (x : string * string) (l : list (string * string)) :=
  match l with
  | [] => [x]
  | y :: rest => if item_leb x y then x :: l else y :: insert_item x rest
  end.

(** [sorted(items)] *)
Fixpoint sorted_items (l : list (string * string)) : list (string * string) :=
  match l with
  | [] => []
  | x :: rest => insert_item x (sorted_items rest)
  end.

(** The [for arg in args] loop of [export_var]. *)
Fixpoint export_loop (args : list string) (sh : shell) : outcome unit * shell :=
  match args with
  | [] => (Ret tt, sh)
  | arg :: rest =>
      if PyStr.contains "=" arg then
        let (key, value) := split_once "=" arg in
        match environ_setitem (env_data sh) key value with
        | inl e => (Raise e, sh)
        | inr data =>
            export_loop rest
              (show (UiSuccess ("Exported: " ++ key ++ "=" ++ value))
                    (mkShell data (shown sh)))
        end
      else export_loop rest (show (UiError ("export: invalid syntax: " ++ arg)) sh)
  end.

(** [export_var(args)]; [rich_available] is the module's
    [RICH_AVAILABLE]. *)
Definition export_var (rich_available : bool) (args : list string) (sh : shell)
  : outcome unit * shell :=
  match args with
  | [] =>
      if rich_available then
        (Ret tt,
         show (UiTable "Environment Variables" ["Variable"; "Value"]
                 (map (fun kv => (fst kv, display_value (snd kv)))
                      (sorted_items (env_data sh)))) sh)
      else
        (Ret tt,
         mkShell (env_data sh)
                 (shown sh ++ map (fun kv => UiPrint (fst kv ++ "=" ++ snd kv))
                                  (env_data sh)))
  | _ => export_loop args sh
  end.

(** The [for var in args] loop of [unset_var]. *)
Fixpoint unset_loop (args : list string) (sh : shell) : outcome unit * shell :=
  match args with
  | [] => (Ret tt, sh)
  | var :: rest =>
      match environ_get (env_data sh) var with
      | Some _ =>
          match environ_delitem (env_data sh) var with
          | inl e => (Raise e, sh)
          | inr data =>
              unset_loop rest
                (show (UiSuccess ("Unset: " ++ var)) (mkShell data (shown sh)))
          end
      | None =>
          unset_loop rest (show (UiWarning ("unset: " ++ var ++ ": not found")) sh)
      end
  end.

(** [unset_var(args)] *)
Definition unset_var (args : list string) (sh : shell) : outcome unit * shell :=
  match args with
  | [] => (Ret tt, show (UiError "unset: variable name required") sh)
  | _ => unset_loop args sh
  end.

(** The word [echo_command] prints for one argument. *)
Definition echo_word (data : environ) (arg : string) : string :=
  match arg with
  | String "$" var_name =>
      match environ_get data var_name with
      | Some v => v
      | None => EmptyString
      end
  | _ => arg
  end.

(** [echo_command(args)] *)
Definition echo_command (args : list string) (sh : shell) : shell :=
  show (UiPrint (PyStr.join " " (map (echo_word (env_data sh)) args))) sh.

End Commands.

(** [arg.startswith('$')] *)
Definition starts_with_dollar (arg : string) : bool :=
  match arg with
  | String "$" _ => true
  | _ => false
  end.

(** A name that [os.environ] accepts. *)
Definition valid_name (key : string) : Prop :=
  key <> EmptyString /\ PyStr.contains "=" key = false /\
  Commands.has_nul key = false.

(** ** history.py: the tab completer *)

Module Completer.

(** What the completer asks the operating system (POSIX). *)
Record os_fs : Type := mkFs {
  env_PATH : option string;            (* os.environ.get('PATH') *)
  isdir : string -> bool;              (* os.path.isdir *)
  listdir : string -> exn + list string;
  access_x : string -> bool;           (* os.access(path, os.X_OK) *)
  expanduser : string -> string;       (* os.path.expanduser *)
  glob : string -> list string         (* glob.glob *)
}.

Definition builtins : list string :=
  ["cd"; "pwd"; "exit"; "help"; "history"; "jobs"; "fg"; "bg";
   "alias"; "unalias"; "export"; "unset"; "echo"; "ps"; "ai"; "script"; "clear"].

(** [s.endswith('/')] *)
Fixpoint ends_with_slash (s : string) : bool :=
  match s with
  | EmptyString => false
  | String c EmptyString => Ascii.eqb c "/"
  | String _ rest => ends_with_slash rest
  end.

(** [os.path.join(a, b)] of [posixpath] *)
Definition path_join (a b : string) : string :=
  if String.prefix "/" b then b
  else if negb (PyStr.truthy a) || ends_with_slash a then (a ++ b)%string
  else (a ++ "/" ++ b)%string.

(** Adding to a set kept as a strictly increasing list. *)
Fixpoint set_insert (x : string) (l : list string) : list string :=
  match l with
  | [] => [x]
  | y :: rest =>
      match String.compare x y with
      | Lt => x :: l
      | Eq => l
      | Gt => y :: set_insert x rest
      end
  end.

(** [sorted(set(l))]: the distinct elements of [l] in increasing order. *)
Fixpoint sorted_set (l : list string) : list string :=
  match l with
  | [] => []
  | x :: rest => set_insert x (sorted_set rest)
  end.

(** The [for directory in path_dirs] loop of [_command_completion];
    [commands] holds what was added to the set so far.  A directory whose
    listing raises [PermissionError] is skipped; any other exception leaves
    the function. *)
Fixpoint scan_path (fs : os_fs) (text : string) (path_dirs : list string)
         (commands : list string) : exn + list string :=
  match path_dirs with
  | [] => inr commands
  | directory :: rest =>
      if isdir fs directory then
        match listdir fs directory with
        | inr filenames =>
            scan_path fs text rest
              (commands ++
               filter (fun filename =>
                         String.prefix text filename &&
                         access_x fs (path_join directory filename))
                      filenames)
        | inl (PermissionError _) => scan_path fs text rest commands
        | inl e => inl e
        end
      else scan_path fs text rest commands
  end.

Definition path_dirs (fs : os_fs) : list string :=
  PyStr.split ":" (match env_PATH fs with Some p => p | None => EmptyString end).

(** [Completer._command_completion(text)] *)
Definition _command_completion (fs : os_fs) (text : string) : exn + list string :=
  match scan_path fs text (path_dirs fs)
          (filter (fun cmd => String.prefix text cmd) builtins) with
  | inr commands => inr (sorted_set commands)
  | inl e => inl e
  end.

(** [Completer.complete(text, state)] for [state >= 0]: the value returned
    and the new [self.matches], or the exception that leaves the call (then
    [self.matches] is unchanged). *)
Definition complete (fs : os_fs) (matches : list string) (text : string)
           (state : nat) : exn + (option string * list string) :=
  let computed :=
    if Nat.eqb state 0 then
      if PyStr.contains "/" text || String.prefix "~" text then
        inr (map (fun m => if isdir fs m then (m ++ "/")%string else m)
                 (glob fs (expanduser fs text ++ "*")%string))
      else _command_completion fs text
    else inr matches in
  match computed with
  | inr ms => inr (nth_error ms state, ms)
  | inl e => inl e
  end.

End Completer.

(** A list in strictly increasing order. *)
Definition increasing (l : list string) : Prop :=
  forall i a b, nth_error l i = Some a -> nth_error l (S i) = Some b ->
                String.compare a b = Lt.

(** A file system for the concrete runs of the completer: the PATH is
    [/bin:/secret], [/bin] holds four programs and [/secret] cannot be
    listed. *)
Definition demo_fs : Completer.os_fs :=
  Completer.mkFs
    (Some "/bin:/secret")
    (fun _ => true)
    (fun d => if String.eqb d "/bin" then inr ["ls"; "cp"; "cat"; "chmod"]
              else inl (PermissionError "[Errno 13] Permission denied"))
    (fun _ => true)
    (fun p => p)
    (fun _ => []).





(** ** neoshell.py: the completer of the REPL *)

Module NeoShellCompleter.

Definition builtins : list string :=
  ["cd"; "pwd"; "exit"; "help"; "history"; "ps"; "clear"].

(** [NeoShell.get_commands(prefix)]; [aliases] are the keys of
    [self.aliases].  The builtin names enter the set without being tested
    against the prefix. *)
Definition get_commands (fs : Completer.os_fs) (aliases : list string)
           (prefix : string) : exn + list string :=
  match Completer.scan_path fs prefix (Completer.path_dirs fs)
          (builtins ++ filter (fun alias => String.prefix prefix alias) aliases) with
  | inr commands_set => inr (Completer.sorted_set commands_set)
  | inl e => inl e
  end.

End NeoShellCompleter.




(** A system in which every file opens and every program starts, exits
    with 0 and writes to its stderr a byte that is not UTF-8. *)
Definition binary_env : os_env :=
  mkEnv (fun _ _ => None)
        (fun _ _ =>
           LaunchedUndecodable 0
             "'utf-8' codec can't decode byte 0xff in position 0: invalid start byte").

(** * Properties *)

(** ** The command parser *)

Lemma is_redirection_false t :
  is_redirection t = false ->
  String.eqb t ">" = false /\ String.eqb t ">>" = false /\ String.eqb t "<" = false.
Proof.
  unfold is_redirection. intros H.
  apply orb_false_iff in H as [H H3]. apply orb_false_iff in H as [H1 H2].
  auto.
Qed.

Lemma scan_argument t rest result :
  is_redirection t = false ->
  scan (t :: rest) result = scan rest (append_arg t result).
Proof.
  intros H. apply is_redirection_false in H as (H1 & H2 & H3).
  simpl. rewrite H1, H2, H3. reflexivity.
Qed.

Lemma append_arg_args a r : args (append_arg a r) = args r ++ [a].
Proof. reflexivity. Qed.

(** A run of plain tokens goes to [args], in order. *)
Lemma scan_arguments pre : forall ts result,
  Forall (fun t => is_redirection t = false) pre ->
  scan (pre ++ ts) result =
  scan ts (mkCmd (command result) (args result ++ pre) (input_file result)
                 (output_file result) (append result)).
Proof.
  induction pre as [|t pre IH]; intros ts result Hpre.
  - rewrite app_nil_r. destruct result; reflexivity.
  - inversion Hpre as [|? ? Ht Hrest]; subst.
    rewrite <- app_comm_cons, scan_argument by assumption.
    rewrite IH by assumption. cbn [command args input_file output_file append append_arg].
    rewrite <- app_assoc. reflexivity.
Qed.

(** An operator with a following token consumes both. *)
Lemma scan_redirect o f rest result :
  scan (redirection_token o :: f :: rest) result = scan rest (redirect o f result).
Proof. destruct o; reflexivity. Qed.

(** An operator in last position is an error naming it. *)
Lemma scan_missing_filename o result :
  scan [redirection_token o] result =
  ParseError ("Missing filename after " ++ redirection_token o).
Proof. destruct o; reflexivity. Qed.

(** A scan that succeeds has consumed whole groups (an argument, or an
    operator with its file name), so scanning a longer list goes on from its
    result. *)
Lemma scan_app n : forall ts1 ts2 r r1,
  length ts1 <= n ->
  scan ts1 r = Parsed r1 ->
  scan (ts1 ++ ts2) r = scan ts2 r1.
Proof.
  induction n as [|n IH]; intros ts1 ts2 r r1 Hlen H.
  - destruct ts1; [|simpl in Hlen; lia]. simpl in H. now inversion H.
  - destruct ts1 as [|t rest]; [simpl in H; now inversion H|].
    simpl in Hlen. rewrite <- app_comm_cons. cbn [scan] in *.
    destruct (String.eqb t ">"); [|destruct (String.eqb t ">>"); [|destruct (String.eqb t "<")]].
    1-3: destruct rest as [|f rest']; [discriminate|];
         rewrite <- app_comm_cons; apply IH; [simpl in Hlen; lia | exact H].
    apply IH; [lia | exact H].
Qed.

(** Apart from the append flag, the scan of the source and the scan of the
    specification give the same result. *)
Lemma scan_spec_scan n : forall ts r r',
  length ts <= n ->
  same_but_append r r' ->
  match scan ts r, spec_scan ts r' with
  | Parsed c, Parsed c' => same_but_append c c'
  | ParseError m, ParseError m' => m = m'
  | _, _ => False
  end.
Proof.
  induction n as [|n IH]; intros ts r r' Hlen Hsame.
  - destruct ts; [exact Hsame | simpl in Hlen; lia].
  - destruct ts as [|t rest]; [exact Hsame|].
    simpl in Hlen. cbn [scan spec_scan].
    destruct Hsame as (Hc & Ha & Hi & Ho).
    destruct (String.eqb t ">"); [|destruct (String.eqb t ">>"); [|destruct (String.eqb t "<")]].
    + destruct rest as [|f rest']; [reflexivity|].
      apply IH; [simpl in Hlen; lia|]. repeat split; simpl; auto.
    + destruct rest as [|f rest']; [reflexivity|].
      apply IH; [simpl in Hlen; lia|]. repeat split; simpl; auto.
    + destruct rest as [|f rest']; [reflexivity|].
      apply IH; [simpl in Hlen; lia|]. repeat split; simpl; auto.
    + apply IH; [lia|]. repeat split; simpl; auto. now rewrite Ha.
Qed.

(** Without a [>>] among the tokens the two scans coincide. *)
Lemma scan_eq_spec_scan n : forall ts r,
  length ts <= n ->
  append r = false ->
  ~ In ">>" ts ->
  scan ts r = spec_scan ts r.
Proof.
  induction n as [|n IH]; intros ts r Hlen Happ Hnot.
  - destruct ts; [reflexivity | simpl in Hlen; lia].
  - destruct ts as [|t rest]; [reflexivity|].
    simpl in Hlen. cbn [scan spec_scan].
    destruct (String.eqb t ">") eqn:E1.
    + destruct rest as [|f rest']; [reflexivity|].
      rewrite IH; [| simpl in Hlen; lia | exact Happ | simpl in Hnot; tauto].
      f_equal. unfold set_append, set_output_file. simpl. now rewrite Happ.
    + destruct (String.eqb t ">>") eqn:E2.
      * apply String.eqb_eq in E2. subst t. exfalso. apply Hnot. now left.
      * destruct (String.eqb t "<").
        -- destruct rest as [|f rest']; [reflexivity|].
           apply IH; [simpl in Hlen; lia | exact Happ | simpl in Hnot; tauto].
        -- apply IH; [lia | exact Happ | simpl in Hnot; tauto].
Qed.

(** C4 (code bug).  [>] after [>>] takes over the output path but leaves the
    append flag set by [>>]: for all [p], [a], [b] the tokens
    [p >> a > b] give output path [b] with append true, not false. *)
Theorem parse_tokens_append_sticks (p a b : string) :
  parse_tokens [p; ">>"; a; ">"; b] = Parsed (mkCmd p [] None (Some b) true)
  /\ parse_tokens ["cat"; ">>"; "a"; ">"; "b"]
     = Parsed (mkCmd "cat" [] None (Some "b") true).
Proof. split; reflexivity. Qed.

Lemma parse_tokens_spec_parse_tokens tokens :
  match parse_tokens tokens, spec_parse_tokens tokens with
  | Parsed c, Parsed c' => same_but_append c c'
  | ParseError m, ParseError m' => m = m'
  | _, _ => False
  end.
Proof.
  destruct tokens as [|t0 rest]; [reflexivity|].
  apply (scan_spec_scan (length rest)); [lia|].
  repeat split.
Qed.

(** C6 (code bug, same defect as C4).  The program, the arguments, the input
    path, the output path and the missing-filename errors are those of the
    scan worded by the specification, for every token sequence; the append
    flag is not: on [sort >> log > out] the source ends with append true,
    where [>] should have given append false. *)
Theorem scan_departs_from_spec_scan :
  (forall tokens,
     match parse_tokens tokens, spec_parse_tokens tokens with
     | Parsed c, Parsed c' => same_but_append c c'
     | ParseError m, ParseError m' => m = m'
     | _, _ => False
     end)
  /\ parse_tokens ["sort"; ">>"; "log"; ">"; "out"]
    = Parsed (mkCmd "sort" [] None (Some "out") true)
  /\ spec_parse_tokens ["sort"; ">>"; "log"; ">"; "out"]
    = Parsed (mkCmd "sort" [] None (Some "out") false).
Proof.
  split; [exact parse_tokens_spec_parse_tokens | split; reflexivity].
Qed.

(** C10.  When the token after a redirection operator is itself a
    redirection operator, it is taken as the file name of the first one and
    the scan goes on after it, wherever the first operator stands: after any
    tokens [p pre] that parse to [r1] (arguments and earlier redirections
    alike), [o1 o2 rest] is [rest] scanned from [r1] with the token of [o2]
    stored as the path of [o1] ([>] and [>>] set output_file, [>>] also sets
    append, [<] sets input_file), and with nothing after the pair the parse
    succeeds with that dictionary, it is not an error. *)
Theorem operator_taken_as_filename (p : string) (pre rest : list string)
        (o1 o2 : redirection) (r1 : cmd_dict) :
  parse_tokens (p :: pre) = Parsed r1 ->
  parse_tokens (p :: pre ++ redirection_token o1 :: redirection_token o2 :: rest)
  = scan rest
      match o1 with
      | RedirOut =>
          mkCmd (command r1) (args r1) (input_file r1)
                (Some (redirection_token o2)) (append r1)
      | RedirAppend =>
          mkCmd (command r1) (args r1) (input_file r1)
                (Some (redirection_token o2)) true
      | RedirIn =>
          mkCmd (command r1) (args r1) (Some (redirection_token o2))
                (output_file r1) (append r1)
      end
  /\ parse_tokens (p :: pre ++ [redirection_token o1; redirection_token o2])
     = Parsed
         match o1 with
         | RedirOut =>
             mkCmd (command r1) (args r1) (input_file r1)
                   (Some (redirection_token o2)) (append r1)
         | RedirAppend =>
             mkCmd (command r1) (args r1) (input_file r1)
                   (Some (redirection_token o2)) true
         | RedirIn =>
             mkCmd (command r1) (args r1) (Some (redirection_token o2))
                   (output_file r1) (append r1)
         end.
Proof.
  intros H. unfold parse_tokens in *.
  split; rewrite (scan_app (length pre) pre _ _ r1 (le_n _) H), scan_redirect;
    destruct o1; reflexivity.
Qed.

Lemma operator_taken_as_filename_witness :
  parse_tokens ["ls"; ">"; "a"; "<"; ">>"; "-l"]
  = scan ["-l"] (mkCmd "ls" [] (Some ">>") (Some "a") false)
  /\ parse_tokens ["ls"; ">"; "a"; "<"; ">>"]
     = Parsed (mkCmd "ls" [] (Some ">>") (Some "a") false).
Proof.
  apply (operator_taken_as_filename "ls" [">"; "a"] ["-l"] RedirIn RedirAppend
           (mkCmd "ls" [] None (Some "a") false)).
  reflexivity.
Defined.

Example operator_as_filename_example :
  parse_tokens ["ls"; ">"; ">>"] = Parsed (mkCmd "ls" [] None (Some ">>") false).
Proof. reflexivity. Qed.

(** ** Splitting and trimming *)

Lemma split_not_nil sep s : PyStr.split sep s <> [].
Proof.
  destruct s as [|c s]; simpl; [discriminate|].
  destruct (Ascii.eqb c sep); [discriminate|].
  destruct (PyStr.split sep s); discriminate.
Qed.

Lemma split_length sep s :
  length (PyStr.split sep s) = S (PyStr.count sep s).
Proof.
  induction s as [|c s IH]; simpl; [reflexivity|].
  destruct (Ascii.eqb c sep); simpl; [now rewrite IH|].
  destruct (PyStr.split sep s) eqn:E; simpl in *; [discriminate | exact IH].
Qed.

Lemma split_join sep s : PyStr.join sep (PyStr.split sep s) = s.
Proof.
  induction s as [|c s IH]; [reflexivity|].
  cbn [PyStr.split].
  destruct (Ascii.eqb_spec c sep) as [->|Hne].
  - pose proof (split_not_nil sep s) as Hnil.
    destruct (PyStr.split sep s) eqn:E; [contradiction|].
    cbn [PyStr.join]. cbn [PyStr.join] in IH. simpl. now rewrite IH.
  - pose proof (split_not_nil sep s) as Hnil.
    destruct (PyStr.split sep s) as [|piece pieces] eqn:E; [contradiction|].
    cbn [PyStr.join] in *. destruct pieces; simpl in *; now rewrite IH.
Qed.

Lemma split_pieces sep s :
  Forall (fun piece => PyStr.contains sep piece = false) (PyStr.split sep s).
Proof.
  induction s as [|c s IH]; simpl; [repeat constructor|].
  destruct (Ascii.eqb c sep) eqn:E; [constructor; [reflexivity | exact IH]|].
  destruct (PyStr.split sep s) as [|piece pieces].
  - repeat constructor. simpl. now rewrite E.
  - inversion IH; subst. constructor; [|assumption]. simpl. now rewrite E.
Qed.

Lemma lstrip_contains c s :
  PyStr.contains c s = false -> PyStr.contains c (PyStr.lstrip s) = false.
Proof.
  induction s as [|d s IH]; simpl; [reflexivity|]. intros H.
  destruct (PyStr.isspace d); [|exact H].
  apply orb_false_iff in H as [_ H]. auto.
Qed.

Lemma rstrip_contains c s :
  PyStr.contains c s = false -> PyStr.contains c (PyStr.rstrip s) = false.
Proof.
  induction s as [|d s IH]; simpl; [reflexivity|]. intros H.
  apply orb_false_iff in H as [Hd H]. specialize (IH H).
  destruct (PyStr.rstrip s) as [|e r].
  - destruct (PyStr.isspace d); simpl; [reflexivity|]. now rewrite Hd.
  - cbn [PyStr.contains] in *. now rewrite Hd, IH.
Qed.

Lemma strip_no_bar s : no_bar s -> no_bar (PyStr.strip s).
Proof. intros H. apply rstrip_contains, lstrip_contains, H. Qed.

(** ** The tokenizer never invents a [|] *)

Lemma contains_push c d t :
  PyStr.contains c (Shlex.push d t) = PyStr.contains c t || Ascii.eqb d c.
Proof.
  unfold Shlex.push. induction t as [|e t IH]; simpl.
  - now rewrite orb_false_r.
  - rewrite IH. now rewrite orb_assoc.
Qed.

Lemma push_no_bar d t : Ascii.eqb d "|" = false -> no_bar t -> no_bar (Shlex.push d t).
Proof. unfold no_bar. intros Hd Ht. now rewrite contains_push, Ht, Hd. Qed.

Lemma break_or_continue_no_bar st lx :
  lexer_no_bar lx -> lexer_no_bar (Shlex.break_or_continue st lx).
Proof.
  intros [Ht He]. unfold Shlex.break_or_continue.
  destruct (PyStr.truthy (Shlex.token lx) || Shlex.quoted lx); split; simpl; auto.
  - reflexivity.
  - apply Forall_app; split; [assumption | now constructor].
Qed.

Lemma step_no_bar c lx :
  Ascii.eqb c "|" = false -> lexer_no_bar lx -> lexer_no_bar (Shlex.step c lx).
Proof.
  intros Hc Hlx. pose proof Hlx as [Ht He]. unfold Shlex.step.
  destruct (Shlex.state lx).
  - destruct (Shlex.whitespace c); [now apply break_or_continue_no_bar|].
    destruct (Shlex.is_escape c); [split; assumption|].
    destruct (Shlex.is_quote c); split; simpl; auto.
    unfold no_bar. simpl. now rewrite Hc.
  - destruct (Shlex.whitespace c); [now apply break_or_continue_no_bar|].
    destruct (Shlex.is_quote c); [split; assumption|].
    destruct (Shlex.is_escape c); split; simpl; auto using push_no_bar.
  - destruct (Ascii.eqb c q); [split; assumption|].
    destruct (Shlex.is_escape c && Shlex.is_escapedquote q); split; simpl;
      auto using push_no_bar.
  - split; simpl; [|assumption]. apply push_no_bar; [assumption|].
    destruct (Shlex.escapedstate lx); try assumption.
    destruct (negb (Shlex.is_escape c) && negb (Ascii.eqb c q)); [|assumption].
    now apply push_no_bar.
Qed.

Lemma run_no_bar s : forall lx tokens,
  no_bar s -> lexer_no_bar lx ->
  Shlex.run s lx = inr tokens -> Forall no_bar tokens.
Proof.
  induction s as [|c s IH]; intros lx tokens Hs Hlx Hrun; simpl in Hrun.
  - destruct Hlx as [Ht He]. unfold Shlex.finish in Hrun.
    destruct (Shlex.state lx); try discriminate;
      destruct (PyStr.truthy (Shlex.token lx) || Shlex.quoted lx);
      inversion Hrun; subst; auto;
      apply Forall_app; split; auto.
  - unfold no_bar in Hs. simpl in Hs. apply orb_false_iff in Hs as [Hc Hs].
    eapply IH; [exact Hs | | exact Hrun]. now apply step_no_bar.
Qed.

Lemma scan_no_bar n : forall ts r c,
  length ts <= n ->
  Forall no_bar ts -> no_bar_cmd r ->
  scan ts r = Parsed c -> no_bar_cmd c.
Proof.
  induction n as [|n IH]; intros ts r c Hlen Hts Hr Hscan.
  - destruct ts; [|simpl in Hlen; lia]. simpl in Hscan. now inversion Hscan; subst.
  - destruct ts as [|t rest]; [simpl in Hscan; now inversion Hscan; subst|].
    simpl in Hlen. inversion Hts as [|? ? Ht Hrest]; subst.
    destruct Hr as (Hc & Ha & Hi & Ho). cbn [scan] in Hscan.
    destruct (String.eqb t ">"); [|destruct (String.eqb t ">>"); [|destruct (String.eqb t "<")]].
    1-3: destruct rest as [|f rest']; [discriminate|];
         inversion Hrest; subst;
         eapply (IH rest'); [simpl in Hlen; lia | assumption | | exact Hscan];
         repeat split; simpl; auto.
    eapply (IH rest); [lia | assumption | | exact Hscan].
    repeat split; simpl; auto. apply Forall_app; split; auto.
Qed.

Lemma parse_command_no_bar s c :
  no_bar s -> parse_command s = Parsed c -> no_bar_cmd c.
Proof.
  unfold parse_command, Shlex.split. intros Hs Hp.
  destruct (Shlex.run s Shlex.init) as [e|tokens] eqn:E; [discriminate|].
  assert (Htok : Forall no_bar tokens).
  { apply (run_no_bar s Shlex.init); auto. split; [reflexivity | constructor]. }
  destruct tokens as [|t0 rest]; [discriminate|]. cbn [parse_tokens] in Hp.
  inversion Htok; subst.
  eapply (scan_no_bar (length rest) rest); eauto.
  repeat split; simpl; auto.
Qed.

(** ** The pipeline parser *)

Lemma parse_segments_cons segment rest commands :
  parse_segments (segment :: rest) commands =
  match segment_error segment with
  | Some msg => PipelineError msg
  | None =>
      match parse_command (PyStr.strip segment) with
      | Parsed c => parse_segments rest (commands ++ [c])
      | ParseError msg => PipelineError msg
      end
  end.
Proof.
  cbn [parse_segments]. unfold segment_error.
  destruct (negb (PyStr.truthy (PyStr.strip segment))); [reflexivity|].
  destruct (parse_command (PyStr.strip segment)); reflexivity.
Qed.

(** The error of the first offending segment is the result. *)
Lemma parse_segments_first_error good : forall commands bad rest msg,
  Forall (fun s => segment_error s = None) good ->
  segment_error bad = Some msg ->
  parse_segments (good ++ bad :: rest) commands = PipelineError msg.
Proof.
  induction good as [|g good IH]; intros commands bad rest msg Hgood Hbad.
  - simpl app. now rewrite parse_segments_cons, Hbad.
  - inversion Hgood as [|? ? Hg Hgood']; subst.
    rewrite <- app_comm_cons, parse_segments_cons, Hg.
    unfold segment_error in Hg.
    destruct (negb (PyStr.truthy (PyStr.strip g))); [discriminate|].
    destruct (parse_command (PyStr.strip g)); [discriminate|].
    now apply IH.
Qed.

Lemma first_offending_segment segments :
  (exists s, In s segments /\ segment_error s <> None) ->
  exists good bad rest msg,
    segments = good ++ bad :: rest /\
    Forall (fun s => segment_error s = None) good /\
    segment_error bad = Some msg.
Proof.
  induction segments as [|s segments IH]; intros (x & Hin & Hx); [destruct Hin|].
  destruct (segment_error s) as [msg|] eqn:Es.
  - exists [], s, segments, msg. repeat split; auto.
  - destruct Hin as [->|Hin]; [congruence|].
    destruct IH as (good & bad & rest & msg & -> & Hgood & Hbad); [now exists x|].
    exists (s :: good), bad, rest, msg. repeat split; auto.
Qed.

(** A returned pipeline has one stage per segment, every segment was
    accepted, and the stages are built from the words of the segments. *)
Lemma parse_segments_pipeline segments : forall commands cmds,
  parse_segments segments commands = Pipeline cmds ->
  length cmds = length commands + length segments /\
  Forall (fun s => segment_error s = None) segments /\
  (Forall no_bar segments -> Forall no_bar_cmd commands -> Forall no_bar_cmd cmds).
Proof.
  induction segments as [|s segments IH]; intros commands cmds H.
  - simpl in H. inversion H; subst. simpl. rewrite Nat.add_0_r. auto.
  - rewrite parse_segments_cons in H.
    destruct (segment_error s) eqn:Es; [discriminate|].
    destruct (parse_command (PyStr.strip s)) as [|c] eqn:Ep; [discriminate|].
    apply IH in H as (Hlen & Hok & Hbar). repeat split.
    + rewrite Hlen, length_app. simpl. lia.
    + now constructor.
    + intros Hsegs Hcommands. inversion Hsegs; subst. apply Hbar; [assumption|].
      apply Forall_app; split; [assumption|]. constructor; [|constructor].
      eapply parse_command_no_bar; [|exact Ep]. now apply strip_no_bar.
Qed.

(** C5 (counterexample).  The quoted [|] of [echo "a|b"] does separate
    stages: the line is cut into [echo "a] and [b"], and the parse fails on
    the unterminated quote instead of giving a single stage. *)
Lemma quoted_bar_is_split :
  PyStr.split "|" echo_quoted_bar
    = ["echo " ++ String "034" "a"; "b" ++ String "034" EmptyString]%string
  /\ parse_pipeline echo_quoted_bar = PipelineError "Syntax error: No closing quotation"
  /\ forall c, parse_pipeline echo_quoted_bar <> Pipeline [c].
Proof. repeat split. intros c H. discriminate H. Qed.

(** C5 (amended).  Every [|] of the line separates stages, quoted or not:
    the line is cut at each of them, and a line that parses gives exactly
    one stage more than it has [|] characters, none of whose words contains
    a [|]. *)
Theorem parse_pipeline_cuts_every_bar (line : string) (cmds : list cmd_dict) :
  parse_pipeline line = Pipeline cmds ->
  length (PyStr.split "|" line) = S (PyStr.count "|" line) /\
  PyStr.join "|" (PyStr.split "|" line) = line /\
  length cmds = S (PyStr.count "|" line) /\
  Forall no_bar_cmd cmds.
Proof.
  unfold parse_pipeline. intros H.
  apply parse_segments_pipeline in H as (Hlen & _ & Hbar).
  repeat split.
  - apply split_length.
  - apply split_join.
  - rewrite Hlen. simpl. apply split_length.
  - apply Hbar; [apply split_pieces | constructor].
Qed.

Lemma parse_pipeline_cuts_every_bar_witness :
  length (PyStr.split "|" "ls -l | grep x") = 2 /\
  PyStr.join "|" (PyStr.split "|" "ls -l | grep x") = "ls -l | grep x" /\
  length [plain "ls" ["-l"]; plain "grep" ["x"]] = 2 /\
  Forall no_bar_cmd [plain "ls" ["-l"]; plain "grep" ["x"]].
Proof.
  apply (parse_pipeline_cuts_every_bar "ls -l | grep x"
           [plain "ls" ["-l"]; plain "grep" ["x"]]).
  reflexivity.
Defined.

(** C7 (counterexample).  In [a > | | c] the second segment is empty after
    trimming, yet the result is the missing-filename error of the first
    segment, not the empty-stage error. *)
Lemma empty_segment_after_bad_segment :
  In " " (PyStr.split "|" "a > | | c") /\ PyStr.strip " " = EmptyString /\
  parse_pipeline "a > | | c" = PipelineError "Missing filename after >" /\
  parse_pipeline "a > | | c" <> PipelineError "Empty command in pipeline".
Proof. repeat split; [simpl; tauto | discriminate]. Qed.

(** C7 (amended).  When some segment is empty after trimming or fails to
    tokenize or to parse, [parse_pipeline] returns no pipeline: its result is
    the error of the first such segment, which is the empty-stage error when
    that segment is the empty one. *)
Theorem parse_pipeline_first_error (line : string) :
  (exists s, In s (PyStr.split "|" line) /\ segment_error s <> None) ->
  exists good bad rest msg,
    PyStr.split "|" line = good ++ bad :: rest /\
    Forall (fun s => segment_error s = None) good /\
    segment_error bad = Some msg /\
    (PyStr.strip bad = EmptyString -> msg = "Empty command in pipeline") /\
    parse_pipeline line = PipelineError msg.
Proof.
  intros H. apply first_offending_segment in H
    as (good & bad & rest & msg & Hsplit & Hgood & Hbad).
  exists good, bad, rest, msg. repeat split; auto.
  - intros Hempty. unfold segment_error in Hbad. rewrite Hempty in Hbad.
    simpl in Hbad. congruence.
  - unfold parse_pipeline. rewrite Hsplit.
    now apply parse_segments_first_error.
Qed.

Lemma parse_pipeline_first_error_witness :
  exists good bad rest msg,
    PyStr.split "|" "a | | c >" = good ++ bad :: rest /\
    Forall (fun s => segment_error s = None) good /\
    segment_error bad = Some msg /\
    (PyStr.strip bad = EmptyString -> msg = "Empty command in pipeline") /\
    parse_pipeline "a | | c >" = PipelineError msg.
Proof.
  apply (parse_pipeline_first_error "a | | c >").
  exists " ". split; [simpl; tauto | discriminate].
Defined.

(** ** The executor *)

Section ExecutorFacts.

Variable env : os_env.

Lemma bind_ret {A B} (m : M A) (k : A -> M B) w a w' :
  m w = (Ret a, w') -> bind m k w = k a w'.
Proof. unfold bind. now intros ->. Qed.

Lemma bind_raise {A B} (m : M A) (k : A -> M B) w e w' :
  m w = (Raise e, w') -> bind m k w = (Raise e, w').
Proof. unfold bind. now intros ->. Qed.

Lemma try_except_ret {A} (m : M A) handler w a w' :
  m w = (Ret a, w') -> try_except m handler w = (Ret a, w').
Proof. unfold try_except. now intros ->. Qed.

Lemma try_except_raise {A} (m : M A) handler w e w' h :
  m w = (Raise e, w') -> handler e = Some h -> try_except m handler w = h w'.
Proof. unfold try_except. now intros -> ->. Qed.

(** *** execute_external *)

(** Once [stdin] is settled, [execute_external] either returns the exit code
    of the child or raises: it never returns [None] from there. *)
Lemma execute_external_run_result parsed_cmd stdin w :
  (exists rc w', execute_external_run env parsed_cmd stdin w = (Ret (Some rc), w'))
  \/ (exists e w', execute_external_run env parsed_cmd stdin w = (Raise e, w')).
Proof.
  unfold execute_external_run, subprocess_run, bind, py_open, Popen,
    start_child, wait, read_stderr, close_opt, close, print_stderr, raise, ret.
  destruct (truthy_path (output_file parsed_cmd)) as [out|].
  - destruct (open_outcome env out (open_mode parsed_cmd)); [right; eauto|].
    cbn [next_handle open_handles started waited console].
    destruct (spawn_outcome env _ _) as [rc err|rc e|e];
      [|right; do 2 eexists; reflexivity|right; do 2 eexists; reflexivity].
    cbn [fst snd returncode stderr_read].
    destruct stdin; destruct (PyStr.truthy err); left; eauto.
  - destruct (spawn_outcome env _ _) as [rc err|rc e|e];
      [|right; do 2 eexists; reflexivity|right; do 2 eexists; reflexivity].
    cbn [fst snd returncode stderr_read].
    destruct stdin; destruct (PyStr.truthy err); left; eauto.
Qed.

(** An exception that leaves the body is turned into its exit code. *)
Lemma execute_external_handlers parsed_cmd w e w' :
  execute_external_body env parsed_cmd w = (Raise e, w') ->
  exists text,
    execute_external env parsed_cmd w
    = (Ret (Some (external_code e)), log (PrintError text) w').
Proof.
  intros H. unfold execute_external, try_except. rewrite H.
  destruct e; eexists; reflexivity.
Qed.

Lemma execute_external_body_missing_input parsed_cmd path msg w :
  truthy_path (input_file parsed_cmd) = Some path ->
  open_outcome env path ModeR = Some (FileNotFoundError msg) ->
  execute_external_body env parsed_cmd w
  = (Ret None, log (PrintError ("Input file not found: " ++ path)) w).
Proof.
  intros Hin Hopen. unfold execute_external_body. rewrite Hin.
  unfold bind, try_except, py_open. rewrite Hopen. reflexivity.
Qed.

Lemma execute_external_body_none parsed_cmd w w' :
  execute_external_body env parsed_cmd w = (Ret None, w') ->
  exists path msg,
    truthy_path (input_file parsed_cmd) = Some path /\
    open_outcome env path ModeR = Some (FileNotFoundError msg).
Proof.
  unfold execute_external_body.
  destruct (truthy_path (input_file parsed_cmd)) as [path|] eqn:Hin.
  - unfold bind at 1, try_except, bind at 1, py_open, ret.
    destruct (open_outcome env path ModeR) as [e|] eqn:Hopen.
    + destruct e; try discriminate. intros _. eauto.
    + intros H.
      match type of H with
      | context [execute_external_run env parsed_cmd ?s ?w0] =>
          destruct (execute_external_run_result parsed_cmd s w0)
            as [(rc & w1 & E)|(e & w1 & E)]; rewrite E in H; discriminate
      end.
  - intros H.
    destruct (execute_external_run_result parsed_cmd None w)
      as [(rc & w1 & E)|(e & w1 & E)]; rewrite E in H; discriminate.
Qed.

(** *** execute_pipeline *)


Lemma wait_all_result processes : forall w,
  Forall decodable processes ->
  exists w',
    wait_all processes w = (Ret tt, w') /\
    waited w' = waited w ++ map pid processes /\
    started w' = started w /\
    open_handles w' = open_handles w.
Proof.
  induction processes as [|proc rest IH]; intros w Hd.
  - exists w. simpl. rewrite app_nil_r. auto.
  - inversion Hd as [|? ? [err Herr] Hrest]; subst.
    cbn [wait_all]. unfold bind at 1, wait. unfold bind at 1, read_stderr.
    rewrite Herr. unfold ret at 1. unfold bind at 1.
    destruct (PyStr.truthy err).
    + unfold print_stderr.
      destruct (IH (log (PrintStderr err)
                     (mkWorld (next_handle w) (open_handles w) (started w)
                              (waited w ++ [pid proc]) (console w))) Hrest)
        as (w' & E & Hw & Hs & Ho).
      exists w'. rewrite E. simpl in *. rewrite Hw, <- app_assoc. auto.
    + unfold ret.
      destruct (IH (mkWorld (next_handle w) (open_handles w) (started w)
                            (waited w ++ [pid proc]) (console w)) Hrest)
        as (w' & E & Hw & Hs & Ho).
      exists w'. rewrite E. simpl in *. rewrite Hw, <- app_assoc. auto.
Qed.

Lemma launch_stages_cons n i cmd rest processes prev_stdout :
  launch_stages env n i (cmd :: rest) processes prev_stdout =
  (stdin <- stage_stdin env i cmd prev_stdout ;;
   stdout <- stage_stdout env n i cmd ;;
   proc <- Popen env (command cmd :: args cmd) stdin stdout ;;
   close_opt prev_stdout ;;
   launch_stages env n (S i) rest (processes ++ [proc]) (p_stdout proc)).
Proof. reflexivity. Qed.

Lemma Popen_decodable cmd_list stdin stdout w proc w' :
  all_start env ->
  Popen env cmd_list stdin stdout w = (Ret proc, w') -> decodable proc.
Proof.
  intros [_ Hspawn]. unfold Popen, start_child.
  destruct (Hspawn (length (started w)) cmd_list) as (rc & err & ->).
  destruct stdout; intros H; inversion H; now exists err.
Qed.

(** When every program writes valid text to its stderr, so do the
    processes the launch loop returns. *)
Lemma launch_stages_decodable stages : forall n i processes prev_stdout w processes' w',
  all_start env ->
  Forall decodable processes ->
  launch_stages env n i stages processes prev_stdout w = (Ret processes', w') ->
  Forall decodable processes'.
Proof.
  induction stages as [|cmd rest IH];
    intros n i processes prev_stdout w processes' w' Hall Hd H.
  - simpl in H. inversion H; now subst.
  - rewrite launch_stages_cons in H. unfold bind at 1 in H.
    destruct (stage_stdin env i cmd prev_stdout w) as [[stdin|e] w1]; [|discriminate].
    unfold bind at 1 in H.
    destruct (stage_stdout env n i cmd w1) as [[stdout|e] w2]; [|discriminate].
    unfold bind at 1 in H.
    destruct (Popen env (command cmd :: args cmd) stdin stdout w2)
      as [[proc|e] w3] eqn:E3; [|discriminate].
    unfold bind at 1 in H.
    destruct (close_opt prev_stdout w3) as [[[]|e] w4]; [|discriminate].
    eapply IH; [exact Hall | | exact H].
    apply Forall_app. split; [exact Hd|]. constructor; [|constructor].
    now apply (Popen_decodable _ _ _ _ _ _ Hall E3).
Qed.

(** The launch loop waits on nothing and prints nothing, whether it ends or
    raises. *)
Lemma quiet_ret {A} (a : A) : quiet (ret a).
Proof. intros w. split; reflexivity. Qed.

Lemma quiet_bind {A B} (m : M A) (k : A -> M B) :
  quiet m -> (forall a, quiet (k a)) -> quiet (bind m k).
Proof.
  intros Hm Hk w. unfold bind. specialize (Hm w).
  destruct (m w) as [[a|e] w']; simpl in Hm.
  - destruct (Hk a w') as [Hw Hc]. destruct Hm as [Hw' Hc'].
    rewrite Hw, Hc. auto.
  - exact Hm.
Qed.

Lemma quiet_py_open path md : quiet (py_open env path md).
Proof.
  intros w. unfold py_open.
  destruct (open_outcome env path md); split; reflexivity.
Qed.

Lemma quiet_close_opt h : quiet (close_opt h).
Proof. intros w. destruct h; split; reflexivity. Qed.

Lemma quiet_Popen cmd_list stdin stdout : quiet (Popen env cmd_list stdin stdout).
Proof.
  intros w. unfold Popen, start_child.
  destruct (spawn_outcome env _ _); [| |split; reflexivity];
    destruct stdout; split; reflexivity.
Qed.

Lemma launch_stages_quiet stages : forall n i processes prev_stdout,
  quiet (launch_stages env n i stages processes prev_stdout).
Proof.
  induction stages as [|cmd rest IH]; intros n i processes prev_stdout;
    [apply quiet_ret|].
  cbn [launch_stages].
  apply quiet_bind.
  { destruct (if Nat.eqb i 0 then _ else _);
      [apply quiet_bind; [apply quiet_py_open | intros; apply quiet_ret]
      | apply quiet_ret]. }
  intros stdin. apply quiet_bind.
  { destruct (Nat.eqb i (n - 1)); [|apply quiet_ret].
    destruct (truthy_path (output_file cmd));
      [apply quiet_bind; [apply quiet_py_open | intros; apply quiet_ret]
      | apply quiet_ret]. }
  intros stdout. apply quiet_bind; [apply quiet_Popen|].
  intros proc. apply quiet_bind; [apply quiet_close_opt|].
  intros _. apply IH.
Qed.

(** When every file opens and every program starts, the launch loop ends
    normally. *)
Lemma succeeds_ret {A} (a : A) : succeeds (ret a).
Proof. intros w. now exists a, w. Qed.

Lemma succeeds_bind {A B} (m : M A) (k : A -> M B) :
  succeeds m -> (forall a, succeeds (k a)) -> succeeds (bind m k).
Proof.
  intros Hm Hk w. destruct (Hm w) as (a & w' & E).
  unfold bind. rewrite E. apply Hk.
Qed.

Lemma succeeds_py_open path md : all_start env -> succeeds (py_open env path md).
Proof.
  intros [Hopen _] w. unfold py_open. rewrite Hopen. eauto.
Qed.

Lemma succeeds_close_opt h : succeeds (close_opt h).
Proof. intros w. destruct h; simpl; unfold close, ret; eauto. Qed.

Lemma succeeds_Popen cmd_list stdin stdout :
  all_start env -> succeeds (Popen env cmd_list stdin stdout).
Proof.
  intros [_ Hspawn] w. unfold Popen, start_child.
  destruct (Hspawn (length (started w)) cmd_list) as (rc & err & ->).
  destruct stdout; eauto.
Qed.

Lemma launch_stages_succeeds stages : forall n i processes prev_stdout,
  all_start env ->
  succeeds (launch_stages env n i stages processes prev_stdout).
Proof.
  induction stages as [|cmd rest IH]; intros n i processes prev_stdout Hall;
    [apply succeeds_ret|].
  cbn [launch_stages].
  apply succeeds_bind.
  { destruct (if Nat.eqb i 0 then _ else _);
      [apply succeeds_bind; [now apply succeeds_py_open | intros; apply succeeds_ret]
      | apply succeeds_ret]. }
  intros stdin. apply succeeds_bind.
  { destruct (Nat.eqb i (n - 1)); [|apply succeeds_ret].
    destruct (truthy_path (output_file cmd));
      [apply succeeds_bind; [now apply succeeds_py_open | intros; apply succeeds_ret]
      | apply succeeds_ret]. }
  intros stdout. apply succeeds_bind; [now apply succeeds_Popen|].
  intros proc. apply succeeds_bind; [apply succeeds_close_opt|].
  intros _. now apply IH.
Qed.

(** A pipeline whose stages all start returns 0, whatever the exit codes
    of its stages. *)
Lemma execute_pipeline_all_start pipeline w :
  all_start env ->
  exists w', execute_pipeline env pipeline w = (Ret 0%Z, w').
Proof.
  intros Hall. unfold execute_pipeline, execute_pipeline_body.
  destruct (launch_stages_succeeds pipeline (length pipeline) 0 [] None Hall w)
    as (processes & w1 & E1).
  destruct (wait_all_result processes w1) as (w2 & E2 & _);
    [exact (launch_stages_decodable _ _ _ _ _ _ _ _ Hall (Forall_nil _) E1)|].
  exists w2. apply try_except_ret.
  rewrite (bind_ret _ _ _ _ _ E1), (bind_ret _ _ _ _ _ E2). reflexivity.
Qed.

(** When the launch loop raises, the handlers print one message and
    return, without waiting on any process and without closing any
    handle. *)
Lemma execute_pipeline_abort pipeline w e w' :
  launch_stages env (length pipeline) 0 pipeline [] None w = (Raise e, w') ->
  waited w' = waited w /\
  exists text,
    execute_pipeline env pipeline w
    = (Ret (pipeline_code e), log (PrintError text) w').
Proof.
  intros E1.
  pose proof (launch_stages_quiet pipeline (length pipeline) 0 [] None w) as [Hq _].
  rewrite E1 in Hq. simpl in Hq. split; [exact Hq|].
  unfold execute_pipeline, try_except, execute_pipeline_body.
  rewrite (bind_raise _ _ _ _ _ E1).
  destruct e; eexists; reflexivity.
Qed.

(** A missing input file of the first stage ends [execute_pipeline] before
    any process is started; it is reported as a command that was not
    found. *)
Lemma execute_pipeline_missing_input first rest path msg w :
  truthy_path (input_file first) = Some path ->
  open_outcome env path ModeR = Some (FileNotFoundError msg) ->
  execute_pipeline env (first :: rest) w
  = (Ret 127%Z, log (PrintError "Command not found in pipeline") w).
Proof.
  intros Hin Hopen.
  unfold execute_pipeline, try_except, execute_pipeline_body.
  cbn [launch_stages Nat.eqb]. rewrite Hin.
  unfold bind, py_open. rewrite Hopen. reflexivity.
Qed.

End ExecutorFacts.

(** A program that cannot be launched: [execute_external] answers 127 for
    a missing program, 126 for a permission failure and 1 otherwise, while
    [execute_pipeline] answers 127 for a missing program and 1 for every
    other failure. *)
Lemma launch_failure_codes env prog arguments e w :
  spawn_outcome env (length (started w)) (prog :: arguments) = LaunchFails e ->
  fst (execute_external env (plain prog arguments) w) = Ret (Some (external_code e)) /\
  fst (execute_pipeline env [plain prog arguments] w) = Ret (pipeline_code e).
Proof.
  intros H. split.
  - unfold execute_external, try_except, execute_external_body,
      execute_external_run, subprocess_run, bind, Popen, ret.
    simpl. rewrite H. destruct e; reflexivity.
  - unfold execute_pipeline, try_except, execute_pipeline_body.
    cbn [launch_stages]. unfold bind, Popen, ret. simpl. rewrite H.
    destruct e; reflexivity.
Qed.

(** C1 (code bug).  The two-stage pipeline [echo hi | false], whose stages
    both start and end, returns 0 although its last stage exits with 1. *)
Theorem pipeline_status_ignores_last_stage :
  spawn_outcome demo_env 1 ["false"] = Launched 1 EmptyString /\
  execute_pipeline demo_env [plain "echo" ["hi"]; plain "false" []] world0
  = (Ret 0%Z, mkWorld 3 [1; 2] [0; 1] [0; 1] []).
Proof. split; reflexivity. Qed.

(** C2 (code bug).  In [ls | nosuch] the first stage is started and the
    second cannot be launched: [execute_pipeline] returns 127 with the first
    child never waited on and its two pipes (handles 0 and 1) still open. *)
Theorem launch_failure_abandons_started_stage :
  execute_pipeline demo_env [plain "ls" []; plain "nosuch" []] world0
  = (Ret 127%Z,
     mkWorld 2 [0; 1] [0] [] [PrintError "Command not found in pipeline"]).
Proof. reflexivity. Qed.

(** C3 (code bug).  A program that cannot be launched for lack of
    permission gives 126 through [execute_external] but 1 through
    [execute_pipeline], which has no handler for [PermissionError]. *)
Theorem pipeline_permission_failure_is_1 :
  execute_external demo_env (plain "./deploy.sh" []) world0
  = (Ret (Some 126%Z), log (PrintError "Permission denied: ./deploy.sh") world0)
  /\ execute_pipeline demo_env [plain "./deploy.sh" []] world0
  = (Ret 1%Z,
     log (PrintError "Pipeline error: [Errno 13] Permission denied: './deploy.sh'")
         world0).
Proof. split; reflexivity. Qed.

(** C8 (code bug).  For [cat < missing.txt | wc -l] no process is started,
    but [execute_pipeline] reports "Command not found in pipeline" with code
    127, which does not name the missing input path; [execute_external] on
    the same stage does report the path. *)
Theorem pipeline_missing_input_reported_as_command :
  execute_pipeline demo_env
    [mkCmd "cat" [] (Some "missing.txt") None false; plain "wc" ["-l"]] world0
  = (Ret 127%Z, log (PrintError "Command not found in pipeline") world0)
  /\ execute_external demo_env (mkCmd "cat" [] (Some "missing.txt") None false) world0
  = (Ret None, log (PrintError "Input file not found: missing.txt") world0).
Proof. split; reflexivity. Qed.

(** C9.  When [input_file] names a file that does not exist,
    [execute_external] prints "Input file not found" and returns [None];
    this is the only way it returns [None]: an exception raised anywhere
    else in its body is turned into the numeric code 127, 126 or 1. *)
Theorem execute_external_missing_input_returns_none
        (env : os_env) (parsed_cmd : cmd_dict) (path msg : string) (w : world) :
  truthy_path (input_file parsed_cmd) = Some path ->
  open_outcome env path ModeR = Some (FileNotFoundError msg) ->
  execute_external env parsed_cmd w
  = (Ret None, log (PrintError ("Input file not found: " ++ path)) w)
  /\ (forall other w1 e w2,
        execute_external_body env other w1 = (Raise e, w2) ->
        fst (execute_external env other w1) = Ret (Some (external_code e)) /\
        (external_code e = 127 \/ external_code e = 126 \/ external_code e = 1)%Z)
  /\ (forall other w1,
        fst (execute_external env other w1) = Ret None ->
        exists p m, truthy_path (input_file other) = Some p /\
                    open_outcome env p ModeR = Some (FileNotFoundError m)).
Proof.
  intros Hin Hopen. repeat split.
  - unfold execute_external. apply try_except_ret.
    now apply execute_external_body_missing_input with (msg := msg).
  - destruct (execute_external_handlers env other w1 e w2 H) as (text & ->).
    reflexivity.
  - destruct e; simpl; auto.
  - intros other w1 H.
    destruct (execute_external_body env other w1) as [[r|e] w2] eqn:E.
    + unfold execute_external in H. rewrite (try_except_ret _ _ _ _ _ E) in H.
      simpl in H. inversion H; subst.
      now apply execute_external_body_none with (w := w1) (w' := w2).
    + destruct (execute_external_handlers env other w1 e w2 E) as (text & E').
      rewrite E' in H. discriminate.
Qed.

Lemma execute_external_missing_input_returns_none_witness :
  execute_external demo_env (mkCmd "sort" ["-r"] (Some "missing.txt") (Some "out.txt") false) world0
  = (Ret None, log (PrintError "Input file not found: missing.txt") world0).
Proof.
  apply (execute_external_missing_input_returns_none demo_env
           (mkCmd "sort" ["-r"] (Some "missing.txt") (Some "out.txt") false)
           "missing.txt" "[Errno 2] No such file or directory: 'missing.txt'" world0);
    reflexivity.
Defined.

(** ** More on the command parser *)

(** X1.  Parsing composes over concatenation: when a token list parses,
    appending more tokens continues the scan from its result. *)
Theorem parse_tokens_app (t0 : string) (ts1 ts2 : list string) (r1 : cmd_dict) :
  parse_tokens (t0 :: ts1) = Parsed r1 ->
  parse_tokens (t0 :: ts1 ++ ts2) = scan ts2 r1.
Proof. unfold parse_tokens. apply (scan_app (length ts1)). lia. Qed.

Lemma parse_tokens_app_witness :
  parse_tokens ("grep" :: ["-i"; "<"; "in.txt"] ++ ["x"; ">"; "out.txt"])
  = scan ["x"; ">"; "out.txt"] (mkCmd "grep" ["-i"] (Some "in.txt") None false).
Proof.
  apply (parse_tokens_app "grep" ["-i"; "<"; "in.txt"] ["x"; ">"; "out.txt"]).
  reflexivity.
Defined.

(** X2.  The last redirection wins: after a token list that parses, a
    further operator with its file name overrides the path of its kind and
    leaves everything else as parsed so far ([>>] also sets append, [>]
    leaves the flag as it is). *)
Theorem parse_tokens_last_redirection (t0 : string) (ts : list string)
        (o : redirection) (f : string) (r1 : cmd_dict) :
  parse_tokens (t0 :: ts) = Parsed r1 ->
  parse_tokens (t0 :: ts ++ [redirection_token o; f]) = Parsed (redirect o f r1).
Proof.
  intros H. unfold parse_tokens in *.
  rewrite (scan_app (length ts) ts _ _ r1 (le_n _) H).
  apply scan_redirect.
Qed.

Lemma parse_tokens_last_redirection_witness :
  parse_tokens ("sort" :: ["<"; "a"; "-r"] ++ ["<"; "b"])
  = Parsed (mkCmd "sort" ["-r"] (Some "b") None false).
Proof.
  apply (parse_tokens_last_redirection "sort" ["<"; "a"; "-r"] RedirIn "b"
           (mkCmd "sort" ["-r"] (Some "a") None false)).
  reflexivity.
Defined.

(** X3.  Without a redirection operator among the tokens, the first token
    is the program, all the others are its arguments in order, and no file
    is set. *)
Theorem parse_tokens_no_redirection (t0 : string) (rest : list string) :
  Forall (fun t => is_redirection t = false) rest ->
  parse_tokens (t0 :: rest) = Parsed (plain t0 rest).
Proof.
  intros H. unfold parse_tokens.
  rewrite <- (app_nil_r rest) at 1. rewrite scan_arguments by assumption.
  reflexivity.
Qed.

Lemma parse_tokens_no_redirection_witness :
  parse_tokens ["ls"; "-la"; "/tmp"] = Parsed (plain "ls" ["-la"; "/tmp"]).
Proof.
  apply (parse_tokens_no_redirection "ls" ["-la"; "/tmp"]).
  repeat constructor.
Defined.

(** What a successful scan keeps: the program, plain arguments only, and an
    append flag that is set only together with an output path. *)
Lemma scan_invariant n : forall ts r c,
  length ts <= n ->
  scan ts r = Parsed c ->
  Forall (fun a => is_redirection a = false) (args r) ->
  (append r = true -> output_file r <> None) ->
  command c = command r /\
  Forall (fun a => is_redirection a = false) (args c) /\
  (append c = true -> output_file c <> None).
Proof.
  induction n as [|n IH]; intros ts r c Hlen H Hargs Happ.
  - destruct ts; [|simpl in Hlen; lia]. simpl in H. inversion H; subst. auto.
  - destruct ts as [|t rest]; [simpl in H; inversion H; subst; auto|].
    simpl in Hlen. cbn [scan] in H.
    destruct (String.eqb t ">") eqn:E1;
      [|destruct (String.eqb t ">>") eqn:E2; [|destruct (String.eqb t "<") eqn:E3]].
    1-3: destruct rest as [|f rest']; [discriminate|];
         apply IH in H; [exact H | simpl in Hlen; lia | exact Hargs
                         | simpl; intros; discriminate || auto].
    apply IH in H; [exact H | lia | | exact Happ].
    simpl. apply Forall_app. split; [exact Hargs|]. constructor; [|constructor].
    unfold is_redirection. now rewrite E1, E2, E3.
Qed.

(** X4.  The arguments of a parsed command never contain a bare [>], [>>]
    or [<], and its program is the first token. *)
Theorem parse_tokens_args_plain (tokens : list string) (c : cmd_dict) :
  parse_tokens tokens = Parsed c ->
  hd_error tokens = Some (command c) /\
  Forall (fun a => is_redirection a = false) (args c).
Proof.
  intros H. destruct tokens as [|t0 rest]; [discriminate|].
  cbn [parse_tokens] in H.
  apply (scan_invariant (length rest)) in H as (Hc & Ha & _);
    [| lia | constructor | discriminate].
  simpl in Hc. simpl. now rewrite Hc.
Qed.

Lemma parse_tokens_args_plain_witness :
  hd_error ["wc"; "-l"; "<"; ">"; "f"] = Some "wc" /\
  Forall (fun a => is_redirection a = false) ["-l"; "f"].
Proof.
  apply (parse_tokens_args_plain ["wc"; "-l"; "<"; ">"; "f"]
           (mkCmd "wc" ["-l"; "f"] (Some ">") None false)).
  reflexivity.
Defined.

(** X5.  A parsed command has its append flag set only when it has an
    output path. *)
Theorem parse_tokens_append_has_output (tokens : list string) (c : cmd_dict) :
  parse_tokens tokens = Parsed c ->
  append c = true ->
  exists f, output_file c = Some f.
Proof.
  intros H Ha. destruct tokens as [|t0 rest]; [discriminate|].
  cbn [parse_tokens] in H.
  apply (scan_invariant (length rest)) in H as (_ & _ & Hout);
    [| lia | constructor | discriminate].
  destruct (output_file c) as [f|]; [now exists f | now destruct (Hout Ha)].
Qed.

Lemma parse_tokens_append_has_output_witness :
  exists f, output_file (mkCmd "ls" [] None (Some "log") true) = Some f.
Proof.
  apply (parse_tokens_append_has_output ["ls"; ">>"; "log"]); reflexivity.
Defined.

Lemma subsequence_nil {A} (l : list A) : subsequence [] l.
Proof. induction l; constructor; assumption. Qed.

(** A scan only moves tokens: the new arguments are a subsequence of the
    scanned tokens and a file name that changed is one of them. *)
Lemma scan_words n : forall ts r c,
  length ts <= n ->
  scan ts r = Parsed c ->
  (exists new, args c = args r ++ new /\ subsequence new ts) /\
  (input_file c = input_file r \/ exists f, input_file c = Some f /\ In f ts) /\
  (output_file c = output_file r \/ exists f, output_file c = Some f /\ In f ts).
Proof.
  induction n as [|n IH]; intros ts r c Hlen H.
  - destruct ts; [|simpl in Hlen; lia]. simpl in H. inversion H; subst.
    split; [exists []; split; [now rewrite app_nil_r | constructor] | auto].
  - destruct ts as [|t rest].
    { simpl in H. inversion H; subst.
      split; [exists []; split; [now rewrite app_nil_r | constructor] | auto]. }
    simpl in Hlen. cbn [scan] in H.
    destruct (String.eqb t ">"); [|destruct (String.eqb t ">>"); [|destruct (String.eqb t "<")]].
    1-3: destruct rest as [|f rest']; [discriminate|];
         apply IH in H; [|simpl in Hlen; lia];
         destruct H as ((new & Hargs & Hsub) & Hin & Hout); simpl in Hargs, Hin, Hout;
         split; [exists new; split; [exact Hargs | now do 2 apply sub_skip]|];
         split;
         [ destruct Hin as [Hin|(g & Hg & Hgin)];
           [ first [left; exact Hin | right; exists f; split; [exact Hin | simpl; auto]]
           | right; exists g; split; [exact Hg | simpl; auto] ]
         | destruct Hout as [Hout|(g & Hg & Hgin)];
           [ first [left; exact Hout | right; exists f; split; [exact Hout | simpl; auto]]
           | right; exists g; split; [exact Hg | simpl; auto] ] ].
    apply IH in H; [|lia].
    destruct H as ((new & Hargs & Hsub) & Hin & Hout). simpl in Hargs, Hin, Hout.
    split; [exists (t :: new); split; [now rewrite Hargs, <- app_assoc | now apply sub_take]|].
    split.
    + destruct Hin as [Hin|(g & Hg & Hgin)]; [now left | right; exists g; simpl; auto].
    + destruct Hout as [Hout|(g & Hg & Hgin)]; [now left | right; exists g; simpl; auto].
Qed.

(** X6.  Every word of a parsed command is one of the tokens after the
    program: the arguments are a subsequence of them and each file name is
    one of them; nothing is invented or reordered. *)
Theorem parse_tokens_words (t0 : string) (rest : list string) (c : cmd_dict) :
  parse_tokens (t0 :: rest) = Parsed c ->
  subsequence (args c) rest /\
  (forall f, input_file c = Some f -> In f rest) /\
  (forall f, output_file c = Some f -> In f rest).
Proof.
  intros H. cbn [parse_tokens] in H.
  apply (scan_words (length rest)) in H; [|lia].
  destruct H as ((new & Hargs & Hsub) & Hin & Hout). simpl in Hargs, Hin, Hout.
  repeat split.
  - now rewrite Hargs.
  - intros f Hf. destruct Hin as [Hin|(g & Hg & Hgin)]; congruence.
  - intros f Hf. destruct Hout as [Hout|(g & Hg & Hgin)]; congruence.
Qed.

Lemma parse_tokens_words_witness :
  subsequence ["-n"; "5"] ["-n"; "<"; "in"; "5"; ">"; "out"] /\
  (forall f, Some "in" = Some f -> In f ["-n"; "<"; "in"; "5"; ">"; "out"]) /\
  (forall f, Some "out" = Some f -> In f ["-n"; "<"; "in"; "5"; ">"; "out"]).
Proof.
  apply (parse_tokens_words "head" ["-n"; "<"; "in"; "5"; ">"; "out"]
           (mkCmd "head" ["-n"; "5"] (Some "in") (Some "out") false)).
  reflexivity.
Defined.

Lemma scan_error n : forall ts r msg,
  length ts <= n ->
  scan ts r = ParseError msg ->
  exists o, msg = ("Missing filename after " ++ redirection_token o)%string.
Proof.
  induction n as [|n IH]; intros ts r msg Hlen H.
  - destruct ts; [discriminate | simpl in Hlen; lia].
  - destruct ts as [|t rest]; [discriminate|].
    simpl in Hlen. cbn [scan] in H.
    destruct (String.eqb t ">"); [|destruct (String.eqb t ">>"); [|destruct (String.eqb t "<")]].
    + destruct rest as [|f rest'];
        [inversion H; now exists RedirOut | apply IH in H; [exact H | simpl in Hlen; lia]].
    + destruct rest as [|f rest'];
        [inversion H; now exists RedirAppend | apply IH in H; [exact H | simpl in Hlen; lia]].
    + destruct rest as [|f rest'];
        [inversion H; now exists RedirIn | apply IH in H; [exact H | simpl in Hlen; lia]].
    + apply IH in H; [exact H | lia].
Qed.

Lemma run_error s : forall lx e,
  Shlex.run s lx = inl e ->
  e = "No closing quotation" \/ e = "No escaped character".
Proof.
  induction s as [|c s IH]; intros lx e H; simpl in H; [|eauto].
  unfold Shlex.finish in H.
  destruct (Shlex.state lx);
    try (destruct (PyStr.truthy (Shlex.token lx) || Shlex.quoted lx); discriminate);
    inversion H; auto.
Qed.

(** X7.  The only errors of [parse_command] are the two tokenizer errors
    (prefixed with "Syntax error: "), "Empty command", and "Missing
    filename after" one of the three operators. *)
Theorem parse_command_errors (command_str msg : string) :
  parse_command command_str = ParseError msg ->
  msg = "Syntax error: No closing quotation" \/
  msg = "Syntax error: No escaped character" \/
  msg = "Empty command" \/
  exists o, msg = ("Missing filename after " ++ redirection_token o)%string.
Proof.
  unfold parse_command, Shlex.split. intros H.
  destruct (Shlex.run command_str Shlex.init) as [e|tokens] eqn:E.
  - apply run_error in E as [-> | ->]; inversion H; auto.
  - destruct tokens as [|t0 rest]; [inversion H; auto|].
    cbn [parse_tokens] in H. apply (scan_error (length rest)) in H; [|lia].
    auto.
Qed.

Lemma parse_command_errors_witness :
  "Missing filename after >>" = "Syntax error: No closing quotation" \/
  "Missing filename after >>" = "Syntax error: No escaped character" \/
  "Missing filename after >>" = "Empty command" \/
  exists o, "Missing filename after >>"
            = ("Missing filename after " ++ redirection_token o)%string.
Proof.
  apply (parse_command_errors "ls -l >>"). reflexivity.
Defined.

Lemma run_blank s :
  all_chars Shlex.whitespace s = true -> Shlex.run s Shlex.init = inr [].
Proof.
  induction s as [|c s IH]; intros H; [reflexivity|].
  simpl in H. apply andb_true_iff in H as [Hc Hs].
  cbn [Shlex.run]. unfold Shlex.step. cbn [Shlex.state Shlex.init].
  rewrite Hc. exact (IH Hs).
Qed.

(** X8.  A command string made of blanks only (or empty) is rejected with
    "Empty command". *)
Theorem parse_command_blank (command_str : string) :
  all_chars Shlex.whitespace command_str = true ->
  parse_command command_str = ParseError "Empty command".
Proof.
  intros H. unfold parse_command, Shlex.split. now rewrite run_blank.
Qed.

Lemma parse_command_blank_witness :
  parse_command "   " = ParseError "Empty command".
Proof. apply (parse_command_blank "   "). reflexivity. Defined.

(** ** More on the pipeline parser *)

Lemma truthy_false s : PyStr.truthy s = false <-> s = EmptyString.
Proof. destruct s; simpl; split; congruence. Qed.

Lemma parse_segments_stages segments : forall commands cmds,
  parse_segments segments commands = Pipeline cmds <->
  exists new, cmds = commands ++ new /\ Forall2 segment_stage segments new.
Proof.
  induction segments as [|s segments IH]; intros commands cmds.
  - simpl. split.
    + intros H. inversion H; subst. exists []. now rewrite app_nil_r.
    + intros (new & -> & HF). inversion HF; subst. now rewrite app_nil_r.
  - cbn [parse_segments]. split.
    + intros H.
      destruct (PyStr.truthy (PyStr.strip s)) eqn:Et; [|discriminate].
      cbn [negb] in H.
      destruct (parse_command (PyStr.strip s)) as [|c] eqn:Ep; [discriminate|].
      apply IH in H as (new & -> & HF).
      exists (c :: new). rewrite <- app_assoc. split; [reflexivity|].
      constructor; [|assumption]. split; [|assumption].
      intros Hs. rewrite Hs in Et. discriminate.
    + intros (new & -> & HF). inversion HF as [|? c ? new' [Hne Hp] HF']; subst.
      destruct (PyStr.truthy (PyStr.strip s)) eqn:Et;
        [|apply truthy_false in Et; contradiction].
      cbn [negb]. rewrite Hp. apply IH. exists new'.
      now rewrite <- app_assoc.
Qed.

(** X9.  [parse_pipeline] returns a pipeline exactly when every
    [|]-separated segment is non-empty after trimming and parses as a
    command; the stages are then the parsed segments, one per segment, in
    order. *)
Theorem parse_pipeline_stages (line : string) (cmds : list cmd_dict) :
  parse_pipeline line = Pipeline cmds <->
  Forall2 segment_stage (PyStr.split "|" line) cmds.
Proof.
  unfold parse_pipeline. rewrite parse_segments_stages. split.
  - now intros (new & -> & HF).
  - intros HF. now exists cmds.
Qed.

Lemma split_without_sep sep s :
  PyStr.contains sep s = false -> PyStr.split sep s = [s].
Proof.
  induction s as [|c s IH]; [reflexivity|]. simpl. intros H.
  apply orb_false_iff in H as [Hc Hs]. rewrite Hc, (IH Hs). reflexivity.
Qed.

(** X10.  A line without [|] that is not blank is parsed as the single
    command it holds: one stage on success, the error of [parse_command]
    otherwise. *)
Theorem parse_pipeline_single (line : string) :
  PyStr.contains "|" line = false ->
  PyStr.strip line <> EmptyString ->
  parse_pipeline line =
  match parse_command (PyStr.strip line) with
  | Parsed c => Pipeline [c]
  | ParseError msg => PipelineError msg
  end.
Proof.
  intros Hbar Hne. unfold parse_pipeline. rewrite split_without_sep by assumption.
  cbn [parse_segments].
  destruct (PyStr.truthy (PyStr.strip line)) eqn:Et;
    [|apply truthy_false in Et; contradiction].
  cbn [negb]. destruct (parse_command (PyStr.strip line)); reflexivity.
Qed.

Lemma parse_pipeline_single_witness :
  parse_pipeline "  ls -l > out " =
  match parse_command (PyStr.strip "  ls -l > out ") with
  | Parsed c => Pipeline [c]
  | ParseError msg => PipelineError msg
  end.
Proof.
  apply (parse_pipeline_single "  ls -l > out "); [reflexivity | discriminate].
Defined.

Lemma isspace_not_bar c : PyStr.isspace c = true -> Ascii.eqb c "|" = false.
Proof.
  intros H. destruct (Ascii.eqb_spec c "|") as [->|]; [discriminate H | reflexivity].
Qed.

Lemma blank_no_bar s :
  all_chars PyStr.isspace s = true -> PyStr.contains "|" s = false.
Proof.
  induction s as [|c s IH]; [reflexivity|]. simpl. intros H.
  apply andb_true_iff in H as [Hc Hs].
  now rewrite (isspace_not_bar c Hc), (IH Hs).
Qed.

Lemma lstrip_blank s :
  all_chars PyStr.isspace s = true -> PyStr.lstrip s = EmptyString.
Proof.
  induction s as [|c s IH]; [reflexivity|]. simpl. intros H.
  apply andb_true_iff in H as [Hc Hs]. now rewrite Hc, (IH Hs).
Qed.

(** X11.  An empty or all-blank line is not accepted as "nothing to do":
    [parse_pipeline] answers the error "Empty command in pipeline". *)
Theorem parse_pipeline_blank (line : string) :
  all_chars PyStr.isspace line = true ->
  parse_pipeline line = PipelineError "Empty command in pipeline".
Proof.
  intros H. unfold parse_pipeline.
  rewrite split_without_sep by now apply blank_no_bar.
  cbn [parse_segments]. unfold PyStr.strip. now rewrite lstrip_blank.
Qed.

Lemma parse_pipeline_blank_witness :
  parse_pipeline "  " = PipelineError "Empty command in pipeline".
Proof. apply (parse_pipeline_blank "  "). reflexivity. Defined.

(** ** More on the executor *)

Section ExecutorOutcomes.

Variable env : os_env.








End ExecutorOutcomes.



(** The third way on two stages: both are started, the first is waited on,
    reading its stderr fails, and the second is never waited on. *)
Example execute_pipeline_undecodable_example :
  execute_pipeline binary_env [plain "cat" ["f"]; plain "wc" ["-l"]] world0
  = (Ret 1%Z,
     mkWorld 3 [1; 2] [0; 1] [0]
       [PrintError
          "Pipeline error: 'utf-8' codec can't decode byte 0xff in position 0: invalid start byte"]).
Proof. reflexivity. Qed.

Lemma filter_fresh h l :
  Forall (fun x => x < h) l ->
  filter (fun x => negb (Nat.eqb x h)) l = l.
Proof.
  induction 1 as [|x l Hx Hl IH]; [reflexivity|]. simpl.
  destruct (Nat.eqb_spec x h); [lia|]. simpl. now rewrite IH.
Qed.

Lemma filter_fresh_snoc h l :
  Forall (fun x => x < h) l ->
  filter (fun x => negb (Nat.eqb x h)) (l ++ [h]) = l.
Proof.
  intros H. rewrite filter_app, filter_fresh by assumption.
  simpl. rewrite Nat.eqb_refl. simpl. apply app_nil_r.
Qed.

Lemma filter_swap {A} (p q : A -> bool) l :
  filter p (filter q l) = filter q (filter p l).
Proof.
  induction l as [|x l IH]; [reflexivity|]. simpl.
  destruct (q x) eqn:Eq, (p x) eqn:Ep; simpl; rewrite ?Eq, ?Ep, IH; reflexivity.
Qed.

Lemma Forall_lt_snoc h l :
  Forall (fun x => x < h) l -> Forall (fun x => x < S h) (l ++ [h]).
Proof.
  intros H. apply Forall_app. split; [|repeat constructor].
  eapply Forall_impl; [|exact H]. simpl. intros. lia.
Qed.

Section ExternalOutcomes.

Variable env : os_env.

(** Once [stdin] is settled, [execute_external] either starts the child,
    waits for it and returns its exit code, or raises: before any child is
    started, or after the child was started and waited on (its stderr is
    not valid text). *)
Lemma execute_external_run_effects parsed_cmd stdin w :
  match execute_external_run env parsed_cmd stdin w with
  | (Ret r, w') =>
      exists rc err,
        r = Some rc /\
        spawn_outcome env (length (started w)) (command parsed_cmd :: args parsed_cmd)
        = Launched rc err /\
        started w' = started w ++ [length (started w)] /\
        waited w' = waited w ++ [length (started w)]
  | (Raise _, w') =>
      (started w' = started w /\ waited w' = waited w) \/
      (started w' = started w ++ [length (started w)] /\
       waited w' = waited w ++ [length (started w)])
  end.
Proof.
  unfold execute_external_run, subprocess_run, bind, py_open, Popen,
    start_child, wait, read_stderr, close_opt, close, print_stderr, log,
    raise, ret.
  destruct (truthy_path (output_file parsed_cmd)) as [out|].
  - destruct (open_outcome env out (open_mode parsed_cmd)); [left; split; reflexivity|].
    cbn [next_handle open_handles started waited console].
    destruct (spawn_outcome env _ _) as [rc err|rc msg|e] eqn:E;
      [|right; split; reflexivity|left; split; reflexivity].
    cbn [fst snd returncode stderr_read pid].
    destruct stdin; destruct (PyStr.truthy err); exists rc, err; auto.
  - destruct (spawn_outcome env _ _) as [rc err|rc msg|e] eqn:E;
      [|right; split; reflexivity|left; split; reflexivity].
    cbn [fst snd returncode stderr_read pid].
    destruct stdin; destruct (PyStr.truthy err); exists rc, err; auto.
Qed.

Lemma execute_external_body_effects parsed_cmd w :
  match execute_external_body env parsed_cmd w with
  | (Ret (Some _), w') =>
      started w' = started w ++ [length (started w)] /\
      waited w' = waited w ++ [length (started w)]
  | (Ret None, w') => started w' = started w /\ waited w' = waited w
  | (Raise _, w') =>
      (started w' = started w /\ waited w' = waited w) \/
      (started w' = started w ++ [length (started w)] /\
       waited w' = waited w ++ [length (started w)])
  end.
Proof.
  unfold execute_external_body.
  destruct (truthy_path (input_file parsed_cmd)) as [path|].
  - unfold bind at 1, try_except, bind at 1, py_open, ret.
    destruct (open_outcome env path ModeR) as [e|].
    + destruct e; try (split; reflexivity); left; split; reflexivity.
    + match goal with
      | |- context [execute_external_run env parsed_cmd ?s ?w0] =>
          pose proof (execute_external_run_effects parsed_cmd s w0) as H;
          destruct (execute_external_run env parsed_cmd s w0) as [[r|e] w1]
      end.
      * destruct H as (rc & err & -> & _ & Hs & Hw). auto.
      * exact H.
  - pose proof (execute_external_run_effects parsed_cmd None w) as H.
    destruct (execute_external_run env parsed_cmd None w) as [[r|e] w1].
    + destruct H as (rc & err & -> & _ & Hs & Hw). auto.
    + exact H.
Qed.

End ExternalOutcomes.

(** X13.  [execute_external] never raises, starts at most one child, and
    never leaves a child it started unwaited: either no process was started
    and none waited on, or exactly one was started and waited on, and the
    result is then a numeric code. *)
Theorem execute_external_outcome (env : os_env) (parsed_cmd : cmd_dict)
        (w : world) :
  exists r w',
    execute_external env parsed_cmd w = (Ret r, w') /\
    ((started w' = started w /\ waited w' = waited w) \/
     (started w' = started w ++ [length (started w)] /\
      waited w' = waited w ++ [length (started w)] /\
      exists rc, r = Some rc)).
Proof.
  pose proof (execute_external_body_effects env parsed_cmd w) as H.
  unfold execute_external, try_except.
  destruct (execute_external_body env parsed_cmd w) as [[[rc|]|e] w1].
  - exists (Some rc), w1. split; [reflexivity|]. right.
    destruct H. eauto.
  - exists None, w1. split; [reflexivity|]. now left.
  - destruct H as [H|[Hs Hw]].
    + destruct e; eexists; eexists; (split; [reflexivity|]); left; exact H.
    + destruct e; eexists; eexists; (split; [reflexivity|]); right;
        cbn [started waited log]; eauto.
Qed.

(** X14.  When the files it needs open and the program launches and writes
    valid text [err] to its stderr, [execute_external] returns the exit code
    of the child unchanged, has waited on it, prints [err] when it is not
    empty, and has closed every handle it opened. *)
Theorem execute_external_success (env : os_env) (parsed_cmd : cmd_dict)
        (w : world) (rc : Z) (err : string) :
  wf_world w ->
  (forall p, truthy_path (input_file parsed_cmd) = Some p ->
             open_outcome env p ModeR = None) ->
  (forall p, truthy_path (output_file parsed_cmd) = Some p ->
             open_outcome env p (open_mode parsed_cmd) = None) ->
  spawn_outcome env (length (started w)) (command parsed_cmd :: args parsed_cmd)
  = Launched rc err ->
  exists w',
    execute_external env parsed_cmd w = (Ret (Some rc), w') /\
    open_handles w' = open_handles w /\
    started w' = started w ++ [length (started w)] /\
    waited w' = waited w ++ [length (started w)] /\
    console w' = console w ++ (if PyStr.truthy err then [PrintStderr err] else []).
Proof.
  intros Hwf Hin Hout Hspawn.
  unfold execute_external, try_except, execute_external_body.
  destruct (truthy_path (input_file parsed_cmd)) as [pin|].
  - unfold bind at 1, try_except, bind at 1, py_open, ret.
    rewrite (Hin pin eq_refl).
    unfold execute_external_run, subprocess_run, bind, py_open, Popen,
      start_child, wait, read_stderr, close_opt, close, print_stderr, log, ret.
    destruct (truthy_path (output_file parsed_cmd)) as [pout|].
    + rewrite (Hout pout eq_refl).
      cbn [next_handle open_handles started waited console]. rewrite Hspawn.
      cbn [fst snd returncode stderr_read pid p_stderr].
      destruct (PyStr.truthy err); eexists; (split; [reflexivity|]);
        cbn [next_handle open_handles started waited console];
        (split; [|rewrite ?app_nil_r; auto]);
        rewrite (filter_fresh_snoc (S (S (next_handle w))))
          by (now do 2 apply Forall_lt_snoc);
        rewrite filter_swap,
          (filter_fresh_snoc (S (next_handle w))) by (now apply Forall_lt_snoc);
        now apply filter_fresh_snoc.
    + cbn [next_handle open_handles started waited console]. rewrite Hspawn.
      cbn [fst snd returncode stderr_read pid p_stderr].
      destruct (PyStr.truthy err); eexists; (split; [reflexivity|]);
        cbn [next_handle open_handles started waited console];
        (split; [|rewrite ?app_nil_r; auto]);
        rewrite (filter_fresh_snoc (S (next_handle w)))
          by (now apply Forall_lt_snoc);
        now apply filter_fresh_snoc.
  - unfold execute_external_run, subprocess_run, bind, py_open, Popen,
      start_child, wait, read_stderr, close_opt, close, print_stderr, log, ret.
    destruct (truthy_path (output_file parsed_cmd)) as [pout|].
    + rewrite (Hout pout eq_refl).
      cbn [next_handle open_handles started waited console]. rewrite Hspawn.
      cbn [fst snd returncode stderr_read pid p_stderr].
      destruct (PyStr.truthy err); eexists; (split; [reflexivity|]);
        cbn [next_handle open_handles started waited console];
        (split; [|rewrite ?app_nil_r; auto]);
        rewrite (filter_fresh_snoc (S (next_handle w)))
          by (now apply Forall_lt_snoc);
        now apply filter_fresh_snoc.
    + rewrite Hspawn.
      cbn [fst snd returncode stderr_read pid p_stderr].
      destruct (PyStr.truthy err); eexists; (split; [reflexivity|]);
        cbn [next_handle open_handles started waited console];
        (split; [|rewrite ?app_nil_r; auto]);
        now apply filter_fresh_snoc.
Qed.

Lemma execute_external_success_witness :
  exists w',
    execute_external demo_env (mkCmd "sort" ["-r"] (Some "in.txt") (Some "out.txt") true) world0
    = (Ret (Some 0%Z), w') /\
    open_handles w' = open_handles world0 /\
    started w' = started world0 ++ [length (started world0)] /\
    waited w' = waited world0 ++ [length (started world0)] /\
    console w' = console world0 ++ (if PyStr.truthy EmptyString
                                    then [PrintStderr EmptyString] else []).
Proof.
  apply (execute_external_success demo_env
           (mkCmd "sort" ["-r"] (Some "in.txt") (Some "out.txt") true)
           world0 0%Z EmptyString).
  - constructor.
  - intros p H. inversion H. reflexivity.
  - intros p H. inversion H. reflexivity.
  - reflexivity.
Defined.

(** X30.  When the files it needs open and the program launches but what it
    wrote to its stderr is not valid text, [execute_external] reports
    [Error: ...] and returns 1 whatever the exit code of the child was; the
    child has been started and waited on, its stderr pipe is closed, and the
    input and output files the call opened are left open: lines 106-109 are
    skipped. *)
Theorem execute_external_undecodable (env : os_env) (parsed_cmd : cmd_dict)
        (w : world) (rc : Z) (msg : string) :
  wf_world w ->
  (forall p, truthy_path (input_file parsed_cmd) = Some p ->
             open_outcome env p ModeR = None) ->
  (forall p, truthy_path (output_file parsed_cmd) = Some p ->
             open_outcome env p (open_mode parsed_cmd) = None) ->
  spawn_outcome env (length (started w)) (command parsed_cmd :: args parsed_cmd)
  = LaunchedUndecodable rc msg ->
  exists w',
    execute_external env parsed_cmd w = (Ret (Some 1%Z), w') /\
    open_handles w'
    = open_handles w
      ++ seq (next_handle w)
             (match truthy_path (input_file parsed_cmd) with
              | Some _ => 1
              | None => 0
              end
              + match truthy_path (output_file parsed_cmd) with
                | Some _ => 1
                | None => 0
                end) /\
    started w' = started w ++ [length (started w)] /\
    waited w' = waited w ++ [length (started w)] /\
    console w' = console w ++ [PrintError ("Error: " ++ msg)%string].
Proof.
  intros Hwf Hin Hout Hspawn.
  unfold execute_external, try_except, execute_external_body.
  destruct (truthy_path (input_file parsed_cmd)) as [pin|].
  - unfold bind at 1, try_except, bind at 1, py_open, ret.
    rewrite (Hin pin eq_refl).
    unfold execute_external_run, subprocess_run, bind, py_open, Popen,
      start_child, wait, read_stderr, close_opt, close, print_error, raise, log, ret.
    destruct (truthy_path (output_file parsed_cmd)) as [pout|].
    + rewrite (Hout pout eq_refl).
      cbn [next_handle open_handles started waited console]. rewrite Hspawn.
      cbn [fst snd returncode stderr_read pid p_stderr str_exn].
      eexists; (split; [reflexivity|]);
        cbn [next_handle open_handles started waited console Nat.add seq].
      split; [|auto].
      rewrite (filter_fresh_snoc (S (S (next_handle w))))
        by (now do 2 apply Forall_lt_snoc).
      now rewrite <- app_assoc.
    + cbn [next_handle open_handles started waited console]. rewrite Hspawn.
      cbn [fst snd returncode stderr_read pid p_stderr str_exn].
      eexists; (split; [reflexivity|]);
        cbn [next_handle open_handles started waited console Nat.add seq].
      split; [|auto].
      now rewrite (filter_fresh_snoc (S (next_handle w)))
        by (now apply Forall_lt_snoc).
  - unfold execute_external_run, subprocess_run, bind, py_open, Popen,
      start_child, wait, read_stderr, close_opt, close, print_error, raise, log, ret.
    destruct (truthy_path (output_file parsed_cmd)) as [pout|].
    + rewrite (Hout pout eq_refl).
      cbn [next_handle open_handles started waited console]. rewrite Hspawn.
      cbn [fst snd returncode stderr_read pid p_stderr str_exn].
      eexists; (split; [reflexivity|]);
        cbn [next_handle open_handles started waited console Nat.add seq].
      split; [|auto].
      now rewrite (filter_fresh_snoc (S (next_handle w)))
        by (now apply Forall_lt_snoc).
    + rewrite Hspawn.
      cbn [fst snd returncode stderr_read pid p_stderr str_exn].
      eexists; (split; [reflexivity|]);
        cbn [next_handle open_handles started waited console Nat.add seq].
      split; [|auto].
      rewrite app_nil_r. now apply filter_fresh_snoc.
Qed.

Lemma execute_external_undecodable_witness :
  exists w',
    execute_external binary_env (mkCmd "cat" [] (Some "in.txt") (Some "o.txt") false) world0
    = (Ret (Some 1%Z), w') /\
    open_handles w' = open_handles world0 ++ seq (next_handle world0) (1 + 1) /\
    started w' = started world0 ++ [length (started world0)] /\
    waited w' = waited world0 ++ [length (started world0)] /\
    console w'
    = console world0
      ++ [PrintError
            "Error: 'utf-8' codec can't decode byte 0xff in position 0: invalid start byte"].
Proof.
  apply (execute_external_undecodable binary_env
           (mkCmd "cat" [] (Some "in.txt") (Some "o.txt") false) world0 0%Z
           "'utf-8' codec can't decode byte 0xff in position 0: invalid start byte").
  - constructor.
  - intros p H. reflexivity.
  - intros p H. reflexivity.
  - reflexivity.
Defined.

(** X15.  When the input file opens but the output file does not,
    [execute_external] starts no process and answers with the code of that
    failure (a missing directory is reported as "Command not found" with
    127), and the input handle it had opened is still open afterwards. *)
Theorem execute_external_output_failure (env : os_env) (parsed_cmd : cmd_dict)
        (w : world) (pin pout : string) (e : exn) :
  truthy_path (input_file parsed_cmd) = Some pin ->
  open_outcome env pin ModeR = None ->
  truthy_path (output_file parsed_cmd) = Some pout ->
  open_outcome env pout (open_mode parsed_cmd) = Some e ->
  exists text,
    execute_external env parsed_cmd w
    = (Ret (Some (external_code e)),
       log (PrintError text)
           (mkWorld (S (next_handle w)) (open_handles w ++ [next_handle w])
                    (started w) (waited w) (console w))) /\
    (forall m, e = FileNotFoundError m ->
               text = ("Command not found: " ++ command parsed_cmd)%string).
Proof.
  intros Hin Hopen Hout Hfail.
  unfold execute_external, try_except, execute_external_body. rewrite Hin.
  unfold bind at 1, try_except, bind at 1, py_open, ret. rewrite Hopen.
  unfold execute_external_run, bind, py_open. rewrite Hout, Hfail.
  destruct e; eexists; (split; [reflexivity|]); intros m Hm;
    [reflexivity | discriminate | discriminate].
Qed.

Lemma execute_external_output_failure_witness :
  exists text,
    execute_external no_output_env
      (mkCmd "sort" [] (Some "in.txt") (Some "nodir/out") false) world0
    = (Ret (Some 127%Z), log (PrintError text) (mkWorld 1 [0] [] [] [])) /\
    (forall m, FileNotFoundError "[Errno 2] No such file or directory"
               = FileNotFoundError m ->
               text = "Command not found: sort").
Proof.
  apply (execute_external_output_failure no_output_env
           (mkCmd "sort" [] (Some "in.txt") (Some "nodir/out") false)
           world0 "in.txt" "nodir/out"
           (FileNotFoundError "[Errno 2] No such file or directory"));
    reflexivity.
Defined.

Lemma truthy_path_idem f : truthy_path (truthy_path f) = truthy_path f.
Proof.
  destruct f as [s|]; [|reflexivity]. simpl.
  destruct (PyStr.truthy s) eqn:E; simpl; [now rewrite E | reflexivity].
Qed.

Section IgnoredFields.

Variable env : os_env.

Lemma launch_stages_drop_empty_paths stages :
  forall n i processes prev_stdout w,
    launch_stages env n i (map drop_empty_paths stages) processes prev_stdout w
    = launch_stages env n i stages processes prev_stdout w.
Proof.
  induction stages as [|c rest IH]; intros n i processes prev_stdout w;
    [reflexivity|].
  cbn [map]. rewrite !launch_stages_cons.
  assert (Hin : stage_stdin env i (drop_empty_paths c) prev_stdout
                = stage_stdin env i c prev_stdout).
  { unfold stage_stdin, drop_empty_paths. cbn [input_file].
    now rewrite truthy_path_idem. }
  assert (Hout : stage_stdout env n i (drop_empty_paths c) = stage_stdout env n i c).
  { unfold stage_stdout, drop_empty_paths, open_mode. cbn [output_file append].
    now rewrite truthy_path_idem. }
  rewrite Hin, Hout. cbn [drop_empty_paths command args].
  unfold bind.
  destruct (stage_stdin env i c prev_stdout w) as [[stdin|e] w1]; [|reflexivity].
  destruct (stage_stdout env n i c w1) as [[stdout|e] w2]; [|reflexivity].
  destruct (Popen env (command c :: args c) stdin stdout w2) as [[proc|e] w3];
    [|reflexivity].
  destruct (close_opt prev_stdout w3) as [[[]|e] w4]; [|reflexivity].
  apply IH.
Qed.

Lemma launch_stages_clear_inner stages :
  forall n i processes prev_stdout w,
    launch_stages env n i (clear_inner n i stages) processes prev_stdout w
    = launch_stages env n i stages processes prev_stdout w.
Proof.
  induction stages as [|c rest IH]; intros n i processes prev_stdout w;
    [reflexivity|].
  cbn [clear_inner]. rewrite !launch_stages_cons.
  match goal with
  | |- context [stage_stdin env i ?c' prev_stdout] =>
      assert (Hin : stage_stdin env i c' prev_stdout
                    = stage_stdin env i c prev_stdout)
        by (unfold stage_stdin; cbn [input_file]; destruct (Nat.eqb i 0); reflexivity);
      assert (Hout : stage_stdout env n i c' = stage_stdout env n i c)
        by (unfold stage_stdout, open_mode; cbn [output_file append];
            destruct (Nat.eqb i (n - 1)); reflexivity);
      rewrite Hin, Hout
  end.
  cbn [command args]. unfold bind.
  destruct (stage_stdin env i c prev_stdout w) as [[stdin|e] w1]; [|reflexivity].
  destruct (stage_stdout env n i c w1) as [[stdout|e] w2]; [|reflexivity].
  destruct (Popen env (command c :: args c) stdin stdout w2) as [[proc|e] w3];
    [|reflexivity].
  destruct (close_opt prev_stdout w3) as [[[]|e] w4]; [|reflexivity].
  apply IH.
Qed.

Lemma clear_inner_length stages : forall n i,
  length (clear_inner n i stages) = length stages.
Proof. induction stages; intros; simpl; auto. Qed.

End IgnoredFields.

(** X16.  A redirection path that is the empty string is ignored like a
    missing one, without any message: both executors behave on a command as
    on the same command with its empty paths removed. *)
Theorem empty_paths_are_ignored (env : os_env) (parsed_cmd : cmd_dict)
        (pipeline : list cmd_dict) (w : world) :
  execute_external env (drop_empty_paths parsed_cmd) w
  = execute_external env parsed_cmd w /\
  execute_pipeline env (map drop_empty_paths pipeline) w
  = execute_pipeline env pipeline w.
Proof.
  split.
  - unfold execute_external, execute_external_body, execute_external_run,
      drop_empty_paths, open_mode.
    cbn [command args input_file output_file append].
    now rewrite !truthy_path_idem.
  - unfold execute_pipeline, try_except, execute_pipeline_body, bind.
    now rewrite length_map, launch_stages_drop_empty_paths.
Qed.

(** X17.  [execute_pipeline] reads the input path of the first stage and
    the output path and append flag of the last stage only: removing them
    from every other stage changes nothing. *)
Theorem inner_redirections_are_ignored (env : os_env) (pipeline : list cmd_dict)
        (w : world) :
  execute_pipeline env (clear_inner (length pipeline) 0 pipeline) w
  = execute_pipeline env pipeline w.
Proof.
  unfold execute_pipeline, try_except, execute_pipeline_body, bind.
  now rewrite clear_inner_length, launch_stages_clear_inner.
Qed.

(** ** show_history (history.py) *)

Lemma skipn_nth {A} (l : list A) : forall k,
  k < length l ->
  exists x, nth_error l k = Some x /\ skipn k l = x :: skipn (S k) l.
Proof.
  induction l as [|a l IH]; intros k Hk; [simpl in Hk; lia|].
  destruct k as [|k]; [exists a; auto|].
  simpl in Hk. destruct (IH k) as (x & Hx & Hs); [lia|].
  exists x. split; [exact Hx | exact Hs].
Qed.

Lemma history_lines_from history : forall m k,
  k + m = length history ->
  flat_map (History.history_line history) (History.range_from (Z.of_nat k + 1) m)
  = History.numbered_lines (Z.of_nat k + 1) (skipn k history).
Proof.
  induction m as [|m IH]; intros k Hk.
  - rewrite Nat.add_0_r in Hk. subst k. now rewrite skipn_all.
  - cbn [History.range_from flat_map].
    destruct (skipn_nth history k) as (x & Hx & Hs); [lia|].
    rewrite Hs. cbn [History.numbered_lines].
    replace (Z.of_nat k + 1 + 1)%Z with (Z.of_nat (S k) + 1)%Z by lia.
    rewrite IH by lia. f_equal.
    unfold History.history_line, History.get_history_item.
    replace (Z.to_nat (Z.of_nat k + 1 - 1)) with k by lia. rewrite Hx.
    destruct (Z.leb_spec 1 (Z.of_nat k + 1)); [|lia].
    destruct (Z.leb_spec (Z.of_nat k + 1) (Z.of_nat (length history))); [|lia].
    reflexivity.
Qed.

Lemma numbered_lines_length items : forall first,
  length (History.numbered_lines first items) <= length items.
Proof.
  induction items as [|item rest IH]; intros first; [simpl; lia|].
  cbn [History.numbered_lines]. rewrite length_app. specialize (IH (first + 1)%Z).
  destruct (PyStr.truthy item); simpl; lia.
Qed.

Lemma show_history_skipn history n :
  History.show_history history n
  = History.numbered_lines (Z.of_nat (length history - Z.to_nat n) + 1)
      (skipn (length history - Z.to_nat n) history).
Proof.
  unfold History.show_history, History.range.
  destruct (Z.ltb_spec n 0) as [Hneg|Hpos].
  { replace (Z.to_nat (Z.of_nat (length history) + 1
                       - Z.max 1 (Z.of_nat (length history) - n + 1))) with 0 by lia.
    replace (Z.to_nat n) with 0 by lia.
    now rewrite Nat.sub_0_r, skipn_all. }
  set (k := length history - Z.to_nat n).
  replace (Z.max 1 (Z.of_nat (length history) - n + 1)) with (Z.of_nat k + 1)%Z
    by (unfold k; lia).
  replace (Z.to_nat (Z.of_nat (length history) + 1 - (Z.of_nat k + 1)))
    with (length history - k) by lia.
  apply history_lines_from. unfold k. lia.
Qed.

(** X18.  [show_history(n)] prints the last [n] entries of the history
    (all of them when there are fewer), oldest first, each with its 1-based
    position in the whole history, leaving out empty entries. *)
Theorem show_history_last_entries (history : list string) (n : Z) :
  History.show_history history n
  = History.numbered_lines (Z.of_nat (length history - Z.to_nat n) + 1)
      (skipn (length history - Z.to_nat n) history).
Proof. apply show_history_skipn. Qed.

(** X19.  [show_history(n)] prints at most [n] lines, and nothing at all
    when [n] is zero or negative. *)
Theorem show_history_at_most_n (history : list string) (n : Z) :
  (Z.of_nat (length (History.show_history history n)) <= Z.max 0 n)%Z /\
  History.show_history history (Z.min n 0) = [].
Proof.
  rewrite !show_history_skipn. split.
  - pose proof (numbered_lines_length
                  (skipn (length history - Z.to_nat n) history)
                  (Z.of_nat (length history - Z.to_nat n) + 1)) as H.
    rewrite length_skipn in H. lia.
  - replace (Z.to_nat (Z.min n 0)) with 0 by lia.
    rewrite Nat.sub_0_r, skipn_all. reflexivity.
Qed.

(** ** The REPL's own parser and translation (neoshell.py) *)

(** X20.  On a line whose tokens after the first contain no redirection
    operator, the parser of the REPL and [parse_command] of [parser.py]
    give the same result, errors included. *)
Theorem parsers_agree_without_redirection (line : string) :
  (forall tokens, Shlex.split line = inr tokens ->
                  Forall (fun t => is_redirection t = false) (tl tokens)) ->
  parse_command line = NeoShell.parse_command line.
Proof.
  intros H. unfold parse_command, NeoShell.parse_command.
  destruct (Shlex.split line) as [e|tokens]; [reflexivity|].
  destruct tokens as [|t0 rest]; [reflexivity|].
  specialize (H (t0 :: rest) eq_refl). simpl in H.
  cbn [parse_tokens]. rewrite <- (app_nil_r rest) at 1.
  rewrite scan_arguments by assumption. reflexivity.
Qed.

Lemma parsers_agree_without_redirection_witness :
  parse_command "grep -i 'a b' notes.txt"
  = NeoShell.parse_command "grep -i 'a b' notes.txt".
Proof.
  apply (parsers_agree_without_redirection "grep -i 'a b' notes.txt").
  intros tokens H. inversion H. repeat constructor.
Defined.

(** X21.  The Windows translation changes nothing on another platform,
    never touches the redirection fields, and is idempotent: translating a
    translated command changes nothing. *)
Theorem translate_command_idempotent (platform : string) (c : cmd_dict) :
  NeoShell.translate_command_for_windows platform
    (NeoShell.translate_command_for_windows platform c)
  = NeoShell.translate_command_for_windows platform c
  /\ NeoShell.translate_command_for_windows platform c
     = (if String.eqb platform "win32"
        then NeoShell.translate_command_for_windows "win32" c else c)
  /\ input_file (NeoShell.translate_command_for_windows platform c) = input_file c
  /\ output_file (NeoShell.translate_command_for_windows platform c) = output_file c
  /\ append (NeoShell.translate_command_for_windows platform c) = append c.
Proof.
  unfold NeoShell.translate_command_for_windows.
  destruct (String.eqb platform "win32") eqn:Ep.
  - cbn [String.eqb Ascii.eqb Bool.eqb].
    destruct (String.eqb (command c) "ls") eqn:E1;
      [|destruct (String.eqb (command c) "ps") eqn:E2;
        [|destruct (String.eqb (command c) "grep") eqn:E3]];
      cbn [command args input_file output_file append];
      rewrite ?E1, ?E2, ?E3; cbn; repeat split.
  - repeat split.
Qed.

(** ** echo, export and unset (commands.py) *)

Lemma echo_word_plain data arg :
  starts_with_dollar arg = false -> Commands.echo_word data arg = arg.
Proof.
  destruct arg as [|c rest]; [reflexivity|]. unfold starts_with_dollar, Commands.echo_word.
  destruct c as [[] [] [] [] [] [] [] []]; try reflexivity. discriminate.
Qed.

(** X22.  [echo_command] prints its arguments joined by single spaces,
    unchanged, when none of them starts with [$]. *)
Theorem echo_plain_arguments (args : list string) (sh : Commands.shell) :
  Forall (fun a => starts_with_dollar a = false) args ->
  Commands.echo_command args sh
  = Commands.show (Commands.UiPrint (PyStr.join " " args)) sh.
Proof.
  intros H. unfold Commands.echo_command. do 3 f_equal.
  induction H as [|a l Ha Hl IH]; [reflexivity|].
  simpl. now rewrite IH, echo_word_plain.
Qed.

Lemma echo_plain_arguments_witness :
  Commands.echo_command ["a$b"; "c"; "x=1"] (Commands.mkShell [("b", "B")] [])
  = Commands.show (Commands.UiPrint "a$b c x=1") (Commands.mkShell [("b", "B")] []).
Proof.
  apply (echo_plain_arguments ["a$b"; "c"; "x=1"]). repeat constructor.
Defined.

Lemma contains_assignment key value :
  PyStr.contains "=" (key ++ String "=" value) = true.
Proof.
  induction key as [|c key IH]; simpl; [reflexivity|].
  rewrite IH. apply orb_true_r.
Qed.

Lemma split_once_assignment key value :
  PyStr.contains "=" key = false ->
  Commands.split_once "=" (key ++ String "=" value) = (key, value).
Proof.
  induction key as [|c key IH]; intros H; [reflexivity|].
  simpl in H. apply orb_false_iff in H as [Hc Hk].
  simpl. rewrite Hc, (IH Hk). reflexivity.
Qed.

Lemma dict_set_get data key value :
  Commands.environ_get (Commands.dict_set data key value) key = Some value.
Proof.
  induction data as [|[k v] data IH]; simpl.
  - now rewrite String.eqb_refl.
  - destruct (String.eqb k key) eqn:E; simpl; rewrite E; [reflexivity | exact IH].
Qed.

Lemma dict_set_get_other data key value other :
  other <> key ->
  Commands.environ_get (Commands.dict_set data key value) other
  = Commands.environ_get data other.
Proof.
  intros Hne. induction data as [|[k v] data IH]; simpl.
  - destruct (String.eqb_spec key other); [congruence | reflexivity].
  - destruct (String.eqb_spec k key) as [->|Hk]; simpl.
    + destruct (String.eqb_spec key other); [congruence | reflexivity].
    + now rewrite IH.
Qed.

Lemma dict_del_get data key :
  Commands.environ_get (Commands.dict_del data key) key = None.
Proof.
  induction data as [|[k v] data IH]; simpl; [reflexivity|].
  destruct (String.eqb k key) eqn:E; simpl; [exact IH | now rewrite E].
Qed.

Lemma dict_del_get_other data key other :
  other <> key ->
  Commands.environ_get (Commands.dict_del data key) other
  = Commands.environ_get data other.
Proof.
  intros Hne. induction data as [|[k v] data IH]; simpl; [reflexivity|].
  destruct (String.eqb_spec k key) as [->|Hk]; simpl.
  - rewrite IH. destruct (String.eqb_spec key other); [congruence | reflexivity].
  - now rewrite IH.
Qed.

Lemma environ_setitem_valid data key value :
  valid_name key -> Commands.has_nul value = false ->
  Commands.environ_setitem data key value = inr (Commands.dict_set data key value).
Proof.
  intros (Hne & Heq & Hnul) Hv. unfold Commands.environ_setitem.
  rewrite Hnul, Hv, Heq. destruct key; [contradiction | reflexivity].
Qed.

(** X23.  Exporting [key=value] and echoing [$key] is a round trip: for a
    valid name and a value without null byte (the value may contain [=]),
    [export_var] sets the variable, leaves every other variable as it was,
    and [echo_command] then prints the value. *)
Theorem export_then_echo (rich_available : bool) (key value : string)
        (sh : Commands.shell) :
  valid_name key ->
  Commands.has_nul value = false ->
  exists sh',
    Commands.export_var rich_available [(key ++ String "=" value)%string] sh
    = (Ret tt, sh') /\
    Commands.environ_get (Commands.env_data sh') key = Some value /\
    (forall other, other <> key ->
       Commands.environ_get (Commands.env_data sh') other
       = Commands.environ_get (Commands.env_data sh) other) /\
    Commands.echo_command [String "$" key] sh'
    = Commands.show (Commands.UiPrint value) sh'.
Proof.
  intros Hkey Hvalue. pose proof Hkey as (_ & Heq & _).
  unfold Commands.export_var, Commands.export_loop.
  rewrite contains_assignment, split_once_assignment by assumption.
  rewrite environ_setitem_valid by assumption.
  eexists. split; [reflexivity|]. cbn [Commands.env_data Commands.show].
  split; [apply dict_set_get|]. split; [intros; now apply dict_set_get_other|].
  unfold Commands.echo_command.
  cbn [map Commands.echo_word Commands.env_data Commands.show].
  now rewrite dict_set_get.
Qed.

Lemma export_then_echo_witness :
  exists sh',
    Commands.export_var false ["OPTS=a=b"] (Commands.mkShell [("HOME", "/root")] [])
    = (Ret tt, sh') /\
    Commands.environ_get (Commands.env_data sh') "OPTS" = Some "a=b" /\
    (forall other, other <> "OPTS" ->
       Commands.environ_get (Commands.env_data sh') other
       = Commands.environ_get [("HOME", "/root")] other) /\
    Commands.echo_command ["$OPTS"] sh'
    = Commands.show (Commands.UiPrint "a=b") sh'.
Proof.
  apply (export_then_echo false "OPTS" "a=b"
           (Commands.mkShell [("HOME", "/root")] []));
    [repeat split; discriminate | reflexivity].
Defined.

(** X24.  Unsetting a variable that is set removes it and nothing else:
    afterwards it has no value, every other variable is as before, and
    echoing it prints an empty word. *)
Theorem unset_then_echo (key value : string) (sh : Commands.shell) :
  valid_name key ->
  Commands.environ_get (Commands.env_data sh) key = Some value ->
  exists sh',
    Commands.unset_var [key] sh = (Ret tt, sh') /\
    Commands.shown sh' = Commands.shown sh ++ [Commands.UiSuccess ("Unset: " ++ key)] /\
    Commands.environ_get (Commands.env_data sh') key = None /\
    (forall other, other <> key ->
       Commands.environ_get (Commands.env_data sh') other
       = Commands.environ_get (Commands.env_data sh) other) /\
    Commands.echo_command [String "$" key] sh'
    = Commands.show (Commands.UiPrint EmptyString) sh'.
Proof.
  intros (Hne & Heq & Hnul) Hset.
  unfold Commands.unset_var, Commands.unset_loop. rewrite Hset.
  unfold Commands.environ_delitem. rewrite Hnul, Heq.
  destruct key as [|c key]; [contradiction|]. cbn [PyStr.truthy negb orb].
  eexists. split; [reflexivity|]. cbn [Commands.env_data Commands.show Commands.shown].
  split; [reflexivity|]. split; [apply dict_del_get|].
  split; [intros; now apply dict_del_get_other|].
  unfold Commands.echo_command.
  cbn [map Commands.echo_word Commands.env_data Commands.show].
  now rewrite dict_del_get.
Qed.

Lemma unset_then_echo_witness :
  exists sh',
    Commands.unset_var ["EDITOR"]
      (Commands.mkShell [("HOME", "/root"); ("EDITOR", "vi")] []) = (Ret tt, sh') /\
    Commands.shown sh' = [] ++ [Commands.UiSuccess "Unset: EDITOR"] /\
    Commands.environ_get (Commands.env_data sh') "EDITOR" = None /\
    (forall other, other <> "EDITOR" ->
       Commands.environ_get (Commands.env_data sh') other
       = Commands.environ_get [("HOME", "/root"); ("EDITOR", "vi")] other) /\
    Commands.echo_command ["$EDITOR"] sh'
    = Commands.show (Commands.UiPrint EmptyString) sh'.
Proof.
  apply (unset_then_echo "EDITOR" "vi"
           (Commands.mkShell [("HOME", "/root"); ("EDITOR", "vi")] []));
    [repeat split; discriminate | reflexivity].
Defined.

Lemma export_loop_frame args : forall sh r sh' k,
  Commands.export_loop args sh = (r, sh') ->
  (forall arg, In arg args -> fst (Commands.split_once "=" arg) <> k) ->
  Commands.environ_get (Commands.env_data sh') k
  = Commands.environ_get (Commands.env_data sh) k.
Proof.
  induction args as [|arg rest IH]; intros sh r sh' k H Hk.
  - simpl in H. now inversion H.
  - cbn [Commands.export_loop] in H.
    assert (Hrest : forall a, In a rest -> fst (Commands.split_once "=" a) <> k)
      by (intros a Ha; apply Hk; now right).
    destruct (PyStr.contains "=" arg).
    + pose proof (Hk arg (or_introl eq_refl)) as Harg.
      destruct (Commands.split_once "=" arg) as [key value]. simpl in Harg.
      unfold Commands.environ_setitem in H.
      destruct (Commands.has_nul key || Commands.has_nul value);
        [inversion H; reflexivity|].
      destruct (PyStr.contains "=" key); [inversion H; reflexivity|].
      destruct (negb (PyStr.truthy key)); [inversion H; reflexivity|].
      apply IH with (k := k) in H; [|exact Hrest].
      rewrite H. cbn [Commands.env_data Commands.show].
      apply dict_set_get_other. congruence.
    + apply IH with (k := k) in H; [|exact Hrest]. exact H.
Qed.

(** X25.  [export_var] only touches the variables named in its arguments:
    a variable that is not the part before the first [=] of any argument
    keeps its value (or stays unset), whether the call ends normally or
    raises on an invalid name. *)
Theorem export_var_frame (rich_available : bool) (args : list string)
        (sh sh' : Commands.shell) (r : outcome unit) (k : string) :
  Commands.export_var rich_available args sh = (r, sh') ->
  (forall arg, In arg args -> fst (Commands.split_once "=" arg) <> k) ->
  Commands.environ_get (Commands.env_data sh') k
  = Commands.environ_get (Commands.env_data sh) k.
Proof.
  intros H Hk. destruct args as [|arg rest].
  - unfold Commands.export_var in H.
    destruct rich_available; inversion H; reflexivity.
  - apply (export_loop_frame (arg :: rest) sh r sh' k); assumption.
Qed.

Lemma export_var_frame_witness :
  Commands.environ_get
    (Commands.env_data
       (snd (Commands.export_var true ["A=1"; "=x"; "B=2"]
               (Commands.mkShell [("B", "0"); ("C", "3")] [])))) "C"
  = Commands.environ_get [("B", "0"); ("C", "3")] "C".
Proof.
  apply (export_var_frame true ["A=1"; "=x"; "B=2"]
           (Commands.mkShell [("B", "0"); ("C", "3")] []) _
           (fst (Commands.export_var true ["A=1"; "=x"; "B=2"]
                   (Commands.mkShell [("B", "0"); ("C", "3")] []))) "C").
  - reflexivity.
  - intros arg [<-|[<-|[<-|[]]]]; discriminate.
Defined.

(** ** The tab completer (history.py) *)

Lemma set_insert_In x l c :
  In c (Completer.set_insert x l) <-> c = x \/ In c l.
Proof.
  induction l as [|y rest IH]; simpl; [intuition|].
  destruct (String.compare x y) eqn:E; simpl.
  - apply String.compare_eq_iff in E. subst y. intuition.
  - intuition.
  - rewrite IH. intuition.
Qed.

Lemma sorted_set_In l c : In c (Completer.sorted_set l) <-> In c l.
Proof.
  induction l as [|x rest IH]; simpl; [reflexivity|].
  rewrite set_insert_In, IH. intuition.
Qed.

Lemma increasing_cons x y l :
  String.compare x y = Lt -> increasing (y :: l) -> increasing (x :: y :: l).
Proof.
  intros Hxy Hl [|i] a b Ha Hb; simpl in *.
  - inversion Ha; inversion Hb; now subst.
  - exact (Hl i a b Ha Hb).
Qed.

Lemma increasing_tail x l : increasing (x :: l) -> increasing l.
Proof. intros H i a b Ha Hb. exact (H (S i) a b Ha Hb). Qed.

Lemma increasing_head x y l : increasing (x :: y :: l) -> String.compare x y = Lt.
Proof. intros H. exact (H 0 x y eq_refl eq_refl). Qed.

Lemma set_insert_head x y l :
  String.compare x y = Gt ->
  exists z rest, Completer.set_insert x (y :: l) = y :: z :: rest /\
                 (z = x \/ hd_error l = Some z).
Proof.
  intros E. simpl. rewrite E. destruct l as [|y' l']; simpl.
  - exists x, []. auto.
  - destruct (String.compare x y'); eauto.
Qed.

Lemma set_insert_increasing x l :
  increasing l -> increasing (Completer.set_insert x l).
Proof.
  induction l as [|y rest IH]; intros Hl.
  - intros [|i] a b Ha Hb; simpl in *; [discriminate | destruct i; discriminate].
  - simpl. destruct (String.compare x y) eqn:E.
    + exact Hl.
    + now apply increasing_cons.
    + specialize (IH (increasing_tail _ _ Hl)).
      destruct (set_insert_head x y rest E) as (z & tl & Hz & Hzx).
      simpl in Hz. rewrite E in Hz. inversion Hz as [Hz']. rewrite Hz' in IH |- *.
      apply increasing_cons; [|exact IH].
      destruct Hzx as [->|Hhd].
      * rewrite String.compare_antisym, E. reflexivity.
      * destruct rest as [|y' rest']; [discriminate|]. inversion Hhd; subst.
        now apply increasing_head in Hl.
Qed.

Lemma sorted_set_increasing l : increasing (Completer.sorted_set l).
Proof.
  induction l as [|x rest IH]; simpl.
  - intros [|i] a b Ha Hb; discriminate.
  - now apply set_insert_increasing.
Qed.

(** What the scan of the PATH adds are file names that start with the
    text; what was in the set stays. *)
Lemma scan_path_commands fs text dirs : forall commands result,
  Completer.scan_path fs text dirs commands = inr result ->
  (forall c, In c commands -> In c result) /\
  (forall c, In c result -> In c commands \/ String.prefix text c = true).
Proof.
  induction dirs as [|d rest IH]; intros commands result H.
  - simpl in H. inversion H; subst. auto.
  - cbn [Completer.scan_path] in H.
    destruct (Completer.isdir fs d); [|now apply IH].
    destruct (Completer.listdir fs d) as [e|filenames].
    + destruct e; try discriminate. now apply IH.
    + apply IH in H as [H1 H2]. split.
      * intros c Hc. apply H1, in_or_app. now left.
      * intros c Hc. apply H2 in Hc as [Hc|Hc]; [|now right].
        apply in_app_or in Hc as [Hc|Hc]; [now left|right].
        apply filter_In in Hc as [_ Hc]. now apply andb_true_iff in Hc as [Hc _].
Qed.

Lemma complete_commands fs old text r ms :
  PyStr.contains "/" text = false ->
  String.prefix "~" text = false ->
  Completer.complete fs old text 0 = inr (r, ms) ->
  exists commands,
    Completer.scan_path fs text (Completer.path_dirs fs)
      (filter (fun cmd => String.prefix text cmd) Completer.builtins) = inr commands /\
    ms = Completer.sorted_set commands /\ r = nth_error ms 0.
Proof.
  intros Hslash Htilde H. unfold Completer.complete in H.
  cbn [Nat.eqb] in H. rewrite Hslash, Htilde in H. cbn [orb] in H.
  unfold Completer._command_completion in H.
  destruct (Completer.scan_path fs text (Completer.path_dirs fs) _) as [e|commands];
    [discriminate|].
  inversion H; subst. now exists commands.
Qed.

(** X26.  For a text that is not a path, the completions computed at state
    0 all start with the text, and every builtin name that starts with the
    text is among them. *)
Theorem complete_offers_matching_commands (fs : Completer.os_fs)
        (old : list string) (text : string) (r : option string) (ms : list string) :
  PyStr.contains "/" text = false ->
  String.prefix "~" text = false ->
  Completer.complete fs old text 0 = inr (r, ms) ->
  (forall c, In c ms -> String.prefix text c = true) /\
  (forall b, In b Completer.builtins -> String.prefix text b = true -> In b ms).
Proof.
  intros Hslash Htilde H.
  destruct (complete_commands fs old text r ms Hslash Htilde H)
    as (commands & Hscan & -> & _).
  apply scan_path_commands in Hscan as [H1 H2]. split.
  - intros c Hc. apply (proj1 (sorted_set_In _ _)) in Hc.
    apply H2 in Hc as [Hc|Hc]; [|exact Hc].
    now apply filter_In in Hc as [_ Hc].
  - intros b Hb Hp. apply (proj2 (sorted_set_In _ _)), H1, filter_In. auto.
Qed.

(** X27.  For a text that is not a path, the completions computed at state
    0 are in strictly increasing order (so without duplicates next to each
    other), and the value returned is the first of them. *)
Theorem complete_sorted (fs : Completer.os_fs) (old : list string)
        (text : string) (r : option string) (ms : list string) :
  PyStr.contains "/" text = false ->
  String.prefix "~" text = false ->
  Completer.complete fs old text 0 = inr (r, ms) ->
  increasing ms /\ r = hd_error ms.
Proof.
  intros Hslash Htilde H.
  destruct (complete_commands fs old text r ms Hslash Htilde H)
    as (commands & _ & -> & ->).
  split; [apply sorted_set_increasing|].
  now destruct (Completer.sorted_set commands).
Qed.

Lemma complete_offers_matching_commands_witness :
  (forall c, In c ["cat"; "cd"; "chmod"; "clear"; "cp"] -> String.prefix "c" c = true) /\
  (forall b, In b Completer.builtins -> String.prefix "c" b = true ->
             In b ["cat"; "cd"; "chmod"; "clear"; "cp"]).
Proof.
  apply (complete_offers_matching_commands demo_fs [] "c" (Some "cat")
           ["cat"; "cd"; "chmod"; "clear"; "cp"]); reflexivity.
Defined.

Lemma complete_sorted_witness :
  increasing ["cat"; "cd"; "chmod"; "clear"; "cp"] /\
  Some "cat" = hd_error ["cat"; "cd"; "chmod"; "clear"; "cp"].
Proof.
  apply (complete_sorted demo_fs ["stale"] "c" (Some "cat")
           ["cat"; "cd"; "chmod"; "clear"; "cp"]); reflexivity.
Defined.

(** ** Handles left open by a successful pipeline *)





Section PipelineHandles.

Variable env : os_env.
Hypothesis Hall : all_start env.








End PipelineHandles.

Section PipelineWiring.

Variable env : os_env.
Hypothesis Hall : all_start env.









End PipelineWiring.



(** ** The completer of the REPL (neoshell.py) *)

(** X29.  [NeoShell.get_commands] offers each of its seven builtin names
    whatever the prefix, also when the name does not start with it;
    everything else it offers starts with the prefix. *)
Theorem get_commands_offers_all_builtins (fs : Completer.os_fs)
        (aliases : list string) (prefix : string) (result : list string) :
  NeoShellCompleter.get_commands fs aliases prefix = inr result ->
  (forall b, In b NeoShellCompleter.builtins -> In b result) /\
  (forall c, In c result ->
             In c NeoShellCompleter.builtins \/ String.prefix prefix c = true).
Proof.
  unfold NeoShellCompleter.get_commands. intros H.
  destruct (Completer.scan_path fs prefix (Completer.path_dirs fs) _)
    as [e|commands] eqn:E; [discriminate|].
  inversion H; subst. apply scan_path_commands in E as [H1 H2]. split.
  - intros b Hb. apply (proj2 (sorted_set_In _ _)), H1, in_or_app. now left.
  - intros c Hc. apply (proj1 (sorted_set_In _ _)) in Hc.
    apply H2 in Hc as [Hc|Hc]; [|now right].
    apply in_app_or in Hc as [Hc|Hc]; [now left|right].
    now apply filter_In in Hc as [_ Hc].
Qed.

Lemma get_commands_offers_all_builtins_witness :
  (forall b, In b NeoShellCompleter.builtins ->
             In b ["cd"; "clear"; "exit"; "help"; "history"; "ls"; "ps"; "pwd"]) /\
  (forall c, In c ["cd"; "clear"; "exit"; "help"; "history"; "ls"; "ps"; "pwd"] ->
             In c NeoShellCompleter.builtins \/ String.prefix "l" c = true).
Proof.
  apply (get_commands_offers_all_builtins demo_fs [] "l"
           ["cd"; "clear"; "exit"; "help"; "history"; "ls"; "ps"; "pwd"]).
  reflexivity.
Defined.
